(** * redact.py: the [Redacter] class, embedded and verified

    The program is Python 2.  A [str] is a byte string: here [string], a
    list of 8-bit [ascii].  An [int] is unbounded: here [Z].  The [dict] of
    substitutions is a finite map, [gmap string string]; the order in which
    Python 2 iterates over it is not fixed by the language and depends on
    how the dict was filled, so the methods take it from a class,
    [DictOrder], the theorems hold for every instance of it, and two dicts
    with the same entries may come with two instances.  The validator is a process outside the program: its
    behaviour is a parameter of the methods, a function of the command line
    and of the command lines run before, and the state of a run is the
    instance together with that history.  An exception leaves the instance
    as the statements before it made it.

    [re] is a library.  Where patterns are run, it is modelled on a
    fragment of its syntax (module [Re]).  Construction uses of it only
    [re.compile] and the number of groups of the result: [compile_regex],
    [__init__] and [create] are also given with these two left open
    (module [AnyRe]), and what is proved there holds for every pattern and
    every behaviour of the library; the fragment is one instance.  Limits
    of the interpreter (recursion depth, memory) are not modelled.  An
    instance is taken to own its table: [__init__] keeps the [dict] it is
    given, and what a caller does to that object from outside is not part
    of the model. *)

From Stdlib Require Import ZArith Ascii DecimalString DecimalZ.
From stdpp Require Import base gmap strings list fin_maps sorting.

Local Open Scope Z_scope.

#[local] Arguments String.append !_ _ /.

(** ** Exceptions and results *)

Inductive exn :=
  | AttributeError (msg : string)
  | ReError (msg : string)          (* re.error / sre_constants.error *)
  | AssertionError (msg : string)
  | OSError
  | KeyError (key : string)
  | OutsideFragment                 (* not a Python exception: the pattern
                                       uses regex syntax this model of [re]
                                       does not cover *)
  | OtherError (name : string).     (* any other exception, by the name of
                                       its class: what a library may raise *)

Inductive result (A : Type) :=
  | Ok (a : A)
  | Raise (e : exn).
Arguments Ok {A} a.
Arguments Raise {A} e.

(** ** The [str] methods the program uses *)

Module Str.

Definition len (s : string) : nat := String.length s.

(** [s.startswith(p)] *)
Fixpoint startswith (s p : string) : bool :=
  match p, s with
  | EmptyString, _ => true
  | String a p', String b s' => if decide (a = b) then startswith s' p' else false
  | String _ _, EmptyString => false
  end.

(** [old in s]: [old] occurs in [s] as a substring. *)
Definition occurs (old s : string) : Prop :=
  ∃ pre post, s = pre +:+ old +:+ post.

(** [s.replace(old, new)]: every non-overlapping occurrence of [old], found
    left to right, is replaced by [new].  [skip] counts the characters of an
    occurrence still to be passed over.  With an empty [old], [new] is put
    before every character and at the end, as Python does. *)
Fixpoint replace_from (old new s : string) (skip : nat) : string :=
  match skip with
  | S n =>
      match s with
      | EmptyString => EmptyString
      | String _ t => replace_from old new t n
      end
  | O =>
      if startswith s old then
        new +:+
        match s with
        | EmptyString => EmptyString
        | String c t =>
            match old with
            | EmptyString => String c (replace_from old new t 0)
            | String _ old' => replace_from old new t (len old')
            end
        end
      else
        match s with
        | EmptyString => EmptyString
        | String c t => String c (replace_from old new t 0)
        end
  end.

Definition replace (s old new : string) : string := replace_from old new s 0.

(** The characters [str.strip()] removes: space, \t, \n, \v, \f, \r. *)
Definition isspace (c : ascii) : bool :=
  let n := nat_of_ascii c in
  ((n =? 32) || ((9 <=? n) && (n <=? 13)))%nat.

Fixpoint lstrip (s : string) : string :=
  match s with
  | EmptyString => EmptyString
  | String c t => if isspace c then lstrip t else s
  end.

(** Drops the trailing white space: a character is kept when it is not
    white space or when something is kept after it. *)
Fixpoint rstrip (s : string) : string :=
  match s with
  | EmptyString => EmptyString
  | String c t =>
      match rstrip t with
      | EmptyString => if isspace c then EmptyString else String c EmptyString
      | t' => String c t'
      end
  end.

Definition strip (s : string) : string := rstrip (lstrip s).

(** [s.split(sep)] for a one-character separator: never an empty list. *)
Fixpoint split (sep : ascii) (s : string) : list string :=
  match s with
  | EmptyString => [EmptyString]
  | String c t =>
      if decide (c = sep) then EmptyString :: split sep t
      else
        match split sep t with
        | h :: r => String c h :: r
        | [] => [String c EmptyString]
        end
  end.

(** [sep.join(parts)] *)
Fixpoint join (sep : string) (parts : list string) : string :=
  match parts with
  | [] => EmptyString
  | [p] => p
  | p :: rest => p +:+ sep +:+ join sep rest
  end.

(** [str(n)] for an [int]: decimal digits, a leading [-] when negative. *)
Definition of_int (n : Z) : string := NilEmpty.string_of_int (Z.to_int n).

End Str.

(** ** The fragment of Python's [re] the program is verified against

    [re] is a library: what the program relies on is [re.compile],
    [compiled.groups] and [compiled.findall].  The model covers literal
    characters, [.], the classes [\d \D \s \S \w \W], escaped punctuation,
    [^] and [$], alternation, capturing and [(?:] groups, and the
    quantifiers [* + ?] (greedy or lazy) on a one-character item.  A
    pattern using anything else compiles to [Raise OutsideFragment]. *)

Module Re.

Inductive cset :=
  | CAny                      (* .  : anything but a newline *)
  | CLit (c : ascii)
  | CDigit (negated : bool)   (* \d \D *)
  | CSpace (negated : bool)   (* \s \S *)
  | CWord (negated : bool).   (* \w \W *)

Inductive regex :=
  | Eps
  | Chr (cs : cset)
  | Rep (lo : nat) (hi : option nat) (greedy : bool) (cs : cset)
  | Bol                       (* ^ *)
  | Eol                       (* $ *)
  | Seq (r1 r2 : regex)
  | Alt (r1 r2 : regex)
  | Grp (capturing : bool) (r : regex).

(** *** Parsing ([sre_parse]) *)

Definition is_digit (c : ascii) : bool :=
  let n := nat_of_ascii c in ((48 <=? n) && (n <=? 57))%nat.

Definition is_alpha (c : ascii) : bool :=
  let n := nat_of_ascii c in
  (((65 <=? n) && (n <=? 90)) || ((97 <=? n) && (n <=? 122)))%nat.

Definition is_word (c : ascii) : bool :=
  is_digit c || is_alpha c || bool_decide (c = "_"%char).

Definition cset_match (cs : cset) (c : ascii) : bool :=
  match cs with
  | CAny => negb (bool_decide (c = "010"%char))
  | CLit a => bool_decide (a = c)
  | CDigit neg => xorb neg (is_digit c)
  | CSpace neg => xorb neg (Str.isspace c)
  | CWord neg => xorb neg (is_word c)
  end.

(** One open group: the alternatives already closed by [|] and the items of
    the alternative being read, both latest first. *)
Record frame := Frame {
  branches : list regex;
  items : list regex
}.

Definition new_frame : frame := Frame [] [].

Definition seq_of (l : list regex) : regex := foldr Seq Eps l.

Fixpoint alt_of (b : regex) (bs : list regex) : regex :=
  match bs with
  | [] => b
  | b' :: bs' => Alt b (alt_of b' bs')
  end.

(** The expression a frame stands for once it is closed. *)
Definition body (f : frame) : regex :=
  match reverse (seq_of (reverse (items f)) :: branches f) with
  | b :: bs => alt_of b bs
  | [] => Eps
  end.

Definition push_item (r : regex) (f : frame) : frame :=
  Frame (branches f) (r :: items f).

Inductive mode :=
  | Normal
  | Escaped        (* after a backslash *)
  | Opened         (* after an opening parenthesis *)
  | OpenedQ.       (* after [(?] *)

(** The group being read, and under it the groups it is nested in, each
    with the kind (capturing or not) of the group opened inside it. *)
Record pstate := PState {
  p_mode : mode;
  p_top : frame;
  p_rest : list (bool * frame)
}.

(** A quantifier applies to the item just read. *)
Definition quantify (lo : nat) (hi : option nat) (st : pstate) : result pstate :=
  match items (p_top st) with
  | [] => Raise (ReError "nothing to repeat")
  | Chr cs :: its =>
      Ok (PState Normal (Frame (branches (p_top st)) (Rep lo hi true cs :: its)) (p_rest st))
  | Rep _ _ _ _ :: _ => Raise (ReError "multiple repeat")
  | Bol :: _ | Eol :: _ => Raise (ReError "nothing to repeat")
  | _ :: _ => Raise OutsideFragment
  end.

(** [?] is a quantifier, or makes the greedy quantifier before it lazy. *)
Definition question (st : pstate) : result pstate :=
  match items (p_top st) with
  | Rep lo hi true cs :: its =>
      Ok (PState Normal (Frame (branches (p_top st)) (Rep lo hi false cs :: its)) (p_rest st))
  | _ => quantify 0 (Some 1%nat) st
  end.

Definition item (r : regex) (st : pstate) : result pstate :=
  Ok (PState Normal (push_item r (p_top st)) (p_rest st)).

(** A group starts: what was being read waits under it. *)
Definition open_group (capturing : bool) (st : pstate) : pstate :=
  PState Normal new_frame ((capturing, p_top st) :: p_rest st).

Definition step_normal (st : pstate) (c : ascii) : result pstate :=
  if decide (c = "\"%char) then Ok (PState Escaped (p_top st) (p_rest st))
  else if decide (c = "("%char) then Ok (PState Opened (p_top st) (p_rest st))
  else if decide (c = ")"%char) then
    match p_rest st with
    | [] => Raise (ReError "unbalanced parenthesis")
    | (capturing, f) :: fs =>
        Ok (PState Normal (push_item (Grp capturing (body (p_top st))) f) fs)
    end
  else if decide (c = "|"%char) then
    Ok (PState Normal
          (Frame (seq_of (reverse (items (p_top st))) :: branches (p_top st)) [])
          (p_rest st))
  else if decide (c = "*"%char) then quantify 0 None st
  else if decide (c = "+"%char) then quantify 1 None st
  else if decide (c = "?"%char) then question st
  else if decide (c = "."%char) then item (Chr CAny) st
  else if decide (c = "^"%char) then item Bol st
  else if decide (c = "$"%char) then item Eol st
  else if decide (c = "["%char) then Raise OutsideFragment
  else if decide (c = "{"%char) then Raise OutsideFragment
  else item (Chr (CLit c)) st.

Definition step_escaped (st : pstate) (c : ascii) : result pstate :=
  if decide (c = "d"%char) then item (Chr (CDigit false)) st
  else if decide (c = "D"%char) then item (Chr (CDigit true)) st
  else if decide (c = "s"%char) then item (Chr (CSpace false)) st
  else if decide (c = "S"%char) then item (Chr (CSpace true)) st
  else if decide (c = "w"%char) then item (Chr (CWord false)) st
  else if decide (c = "W"%char) then item (Chr (CWord true)) st
  else if is_digit c || is_alpha c then Raise OutsideFragment
  else item (Chr (CLit c)) st.

Definition step (st : pstate) (c : ascii) : result pstate :=
  match p_mode st with
  | Normal => step_normal st c
  | Escaped => step_escaped st c
  | Opened =>
      if decide (c = "?"%char) then Ok (PState OpenedQ (p_top st) (p_rest st))
      else step_normal (open_group true st) c
  | OpenedQ =>
      if decide (c = ":"%char) then Ok (open_group false st)
      else Raise OutsideFragment
  end.

Fixpoint run (st : pstate) (s : string) : result pstate :=
  match s with
  | EmptyString => Ok st
  | String c t =>
      match step st c with
      | Ok st' => run st' t
      | Raise e => Raise e
      end
  end.

Definition finish (st : pstate) : result regex :=
  match p_mode st with
  | Escaped => Raise (ReError "bogus escape (end of line)")
  | OpenedQ => Raise (ReError "unexpected end of pattern")
  | Opened => Raise (ReError "unbalanced parenthesis")
  | Normal =>
      match p_rest st with
      | [] => Ok (body (p_top st))
      | _ :: _ => Raise (ReError "unbalanced parenthesis")
      end
  end.

Definition parse (s : string) : result regex :=
  match run (PState Normal new_frame []) s with
  | Ok st => finish st
  | Raise e => Raise e
  end.

(** The number of capturing groups. *)
Fixpoint count_groups (r : regex) : nat :=
  match r with
  | Seq r1 r2 | Alt r1 r2 => (count_groups r1 + count_groups r2)%nat
  | Grp true r' => S (count_groups r')
  | Grp false r' => count_groups r'
  | _ => 0%nat
  end.

(** A compiled pattern object. *)
Record Pattern := mkPattern {
  pattern : string;
  ast : regex
}.

Definition groups (p : Pattern) : nat := count_groups (ast p).

(** [re.compile]: [sre_compile] refuses a pattern with 100 groups or more. *)
Definition compile (s : string) : result Pattern :=
  match parse s with
  | Ok r =>
      if (100 <=? count_groups r)%nat
      then Raise (AssertionError "sorry, but this version only supports 100 named groups")
      else Ok (mkPattern s r)
  | Raise e => Raise e
  end.

(** *** Matching ([_sre]): backtracking, leftmost, alternatives in order *)

(** A match found: what is left of the subject after it, and what the
    capturing group held ([None] when it took no part in the match). *)
Definition found : Type := string * option string.

Definition orelse (a b : option found) : option found :=
  match a with
  | Some _ => a
  | None => b
  end.

(** [lo] to [hi] characters of the class [cs], then [k]. *)
Fixpoint rep (cs : cset) (greedy : bool) (lo : nat) (hi : option nat)
    (s : string) (k : string → option found) : option found :=
  let stop := match lo with O => k s | S _ => None end in
  let more :=
    match s with
    | String c t =>
        if cset_match cs c && negb (bool_decide (hi = Some O))
        then rep cs greedy (pred lo) (pred <$> hi) t k
        else None
    | EmptyString => None
    end in
  if greedy then orelse more stop else orelse stop more.

(** [n] is the length of the whole subject: [^] holds where all of it is
    still ahead.  [$] holds at the end and before a final newline. *)
Fixpoint m (r : regex) (n : nat) (s : string) (cap : option string)
    (k : string → option string → option found) : option found :=
  match r with
  | Eps => k s cap
  | Chr cs =>
      match s with
      | String c t => if cset_match cs c then k t cap else None
      | EmptyString => None
      end
  | Rep lo hi greedy cs => rep cs greedy lo hi s (λ s', k s' cap)
  | Bol => if (Str.len s =? n)%nat then k s cap else None
  | Eol =>
      match s with
      | EmptyString => k s cap
      | String c EmptyString => if bool_decide (c = "010"%char) then k s cap else None
      | _ => None
      end
  | Seq r1 r2 => m r1 n s cap (λ s' cap', m r2 n s' cap' k)
  | Alt r1 r2 => orelse (m r1 n s cap k) (m r2 n s cap k)
  | Grp true r' =>
      m r' n s cap
        (λ s' _, k s' (Some (String.substring 0 (Str.len s - Str.len s') s)))
  | Grp false r' => m r' n s cap k
  end.

(** A match starting exactly where [s] starts. *)
Definition match_here (r : regex) (n : nat) (s : string) : option found :=
  m r n s None (λ s' cap, Some (s', cap)).

(** What [findall] lists for one match of a pattern with one group. *)
Definition group1 (f : found) : string := default EmptyString (snd f).

(** The loop of [pattern_findall]: search from the current start; after a
    match go on from its end, or one character further when it was empty;
    stop when the start passes the end of the subject.  [skip] counts the
    characters of a match still to be passed over. *)
Fixpoint findall_from (r : regex) (n : nat) (s : string) (skip : nat) : list string :=
  match skip with
  | S j =>
      match s with
      | EmptyString => []
      | String _ t => findall_from r n t j
      end
  | O =>
      match match_here r n s with
      | Some f =>
          group1 f ::
          match s with
          | EmptyString => []
          | String _ t => findall_from r n t (pred (Str.len s - Str.len (fst f)))
          end
      | None =>
          match s with
          | EmptyString => []
          | String _ t => findall_from r n t 0
          end
      end
  end.

(** [p.findall(s)] for a pattern with exactly one capturing group, which is
    all [Redacter.compile_regex] lets through. *)
Definition findall (p : Pattern) (s : string) : list string :=
  findall_from (ast p) (Str.len s) s 0.

(** The same loop, keeping for each match where it starts and ends in the
    subject ([p.finditer(s)], with [m.start()], [m.end()] and the group);
    [pos] is where [s] starts in the subject. *)
Fixpoint finditer_from (r : regex) (n : nat) (s : string) (skip pos : nat)
    : list (nat * nat * string) :=
  match skip with
  | S j =>
      match s with
      | EmptyString => []
      | String _ t => finditer_from r n t j (S pos)
      end
  | O =>
      match match_here r n s with
      | Some f =>
          (pos, pos + (Str.len s - Str.len (fst f)), group1 f)%nat ::
          match s with
          | EmptyString => []
          | String _ t =>
              finditer_from r n t (pred (Str.len s - Str.len (fst f))) (S pos)
          end
      | None =>
          match s with
          | EmptyString => []
          | String _ t => finditer_from r n t 0 (S pos)
          end
      end
  end.

Definition finditer (p : Pattern) (s : string) : list (nat * nat * string) :=
  finditer_from (ast p) (Str.len s) s 0 0.

End Re.

Definition findall_of (regex subject : string) : result (list string) :=
  match Re.compile regex with
  | Ok p => Ok (Re.findall p subject)
  | Raise e => Raise e
  end.

(** ** Results and state as monads *)

Global Instance result_ret : MRet result := λ A a, Ok a.
Global Instance result_bind : MBind result := λ A B f ma,
  match ma with
  | Ok a => f a
  | Raise e => Raise e
  end.

(** [[f(x) for x in l]], stopping at the first exception. *)
Fixpoint map_result {A B} (f : A → result B) (l : list A) : result (list B) :=
  match l with
  | [] => Ok []
  | x :: l' => y ← f x; ys ← map_result f l'; Ok (y :: ys)
  end.

(** ** The environment of a run *)

(** Python 2 leaves the order in which a [dict] is iterated open: any
    enumeration of its entries. *)
Class DictOrder := {
  iteritems : gmap string string → list (string * string);
  iteritems_perm : ∀ d, iteritems d ≡ₚ map_to_list d
}.

(** The enumeration used where an example needs one. *)
Definition key_order : DictOrder :=
  {| iteritems := map_to_list; iteritems_perm := λ d, reflexivity _ |}.

(** What [subprocess.call] gives: the exit status of the process, or an
    [OSError] when it cannot be started. *)
Inductive proc :=
  | Exited (status : Z)
  | NotStarted.

(** The command lines run so far, oldest first. *)
Definition world : Type := list (list string).

(** [sorted(l, key=key, reverse=reverse)]: a stable sort. *)
Fixpoint insert_sorted {A} (before : A → A → bool) (x : A) (l : list A) : list A :=
  match l with
  | [] => [x]
  | y :: l' => if before x y then x :: y :: l' else y :: insert_sorted before x l'
  end.

Definition sorted {A} (l : list A) (key : A → nat) (reverse : bool) : list A :=
  foldr (insert_sorted (λ x y, if reverse then (key y <=? key x)%nat
                                else (key x <=? key y)%nat)) [] l.

(** ** class Redacter *)

Record Redacter := mkRedacter {
  substitution_string : string;
  patterns : list Re.Pattern;
  substitutions : gmap string string;
  _counter : Z;
  validator : option string
}.

(** Truth values of the optional arguments: [None], [[]] and [{}] are false. *)
Definition some_patterns (patterns : option (list string)) : bool :=
  match patterns with
  | Some (_ :: _) => true
  | _ => false
  end.

Definition some_substitutions (substitutions : option (gmap string string)) : bool :=
  match substitutions with
  | Some d => bool_decide (d ≠ ∅)
  | None => false
  end.

Definition dquote : string := String (ascii_of_nat 34) EmptyString.

Definition compile_regex (regex : string) : result Re.Pattern :=
  compiled ← Re.compile regex;
  if (1 <? Re.groups compiled)%nat then
    Raise (AttributeError
             ("regular_expression " +:+ dquote +:+ regex +:+ dquote +:+
              " is invalid. It should have at most 1 capturing group"))
  else if (Re.groups compiled =? 0)%nat then
    Re.compile ("(" +:+ regex +:+ ")")
  else Ok compiled.

Definition __init__ (substitution_string : string) (patterns : option (list string))
    (substitutions : option (gmap string string)) (validator : option string)
    : result Redacter :=
  if negb (some_patterns patterns) && negb (some_substitutions substitutions) then
    Raise (AttributeError "At least patterns or substitutions must be defined")
  else
    compiled ← (if some_patterns patterns
                then map_result compile_regex (default [] patterns)
                else Ok []);
    Ok {| substitution_string := substitution_string;
          patterns := compiled;
          substitutions := if some_substitutions substitutions
                           then default ∅ substitutions else ∅;
          _counter := 0;
          validator := validator |}.

(** [read_uncommented_lines]: the lines of a file, stripped, without the
    blank ones and the comments; nothing when the file cannot be read. *)
Definition read_uncommented_lines (file : option (list string)) : list string :=
  match file with
  | None => []
  | Some lines =>
      filter (λ line, line ≠ EmptyString ∧ Str.startswith line "#" = false)
             (Str.strip <$> lines)
  end.

(** One line of a substitutions file: [<secret>=<anonymized string>]. *)
Definition parse_substitution (line : string) : string * string :=
  let parts := Str.split "=" line in
  (Str.strip (Str.join "=" (removelast parts)), Str.strip (List.last parts EmptyString)).

(** A dict comprehension: a later entry replaces an earlier one. *)
Definition dict_of (l : list (string * string)) : gmap string string :=
  foldl (λ d kv, <[kv.1 := kv.2]> d) ∅ l.

(** [Redacter.create]: [None] when [AttributeError] is raised; any other
    exception goes through. *)
Definition create (substitution_string : string) (regex_file : option (list string))
    (substitutions_file : option (list string)) (validator_file : option string)
    : result (option Redacter) :=
  let patterns := read_uncommented_lines regex_file in
  let substitutions :=
    dict_of (parse_substitution <$> read_uncommented_lines substitutions_file) in
  match __init__ substitution_string (Some patterns) (Some substitutions) validator_file with
  | Ok r => Ok (Some r)
  | Raise (AttributeError _) => Ok None
  | Raise e => Raise e
  end.

(** *** The methods that run: state is the instance and the world *)

Definition state : Type := Redacter * world.
Definition M (A : Type) : Type := state → result A * state.

Global Instance M_ret : MRet M := λ A a st, (Ok a, st).
Global Instance M_bind : MBind M := λ A B f ma st,
  match ma st with
  | (Ok a, st') => f a st'
  | (Raise e, st') => (Raise e, st')
  end.

Definition get_self : M Redacter := λ st, (Ok st.1, st).
Definition set_self (self : Redacter) : M unit := λ st, (Ok (), (self, st.2)).
Definition raise {A} (e : exn) : M A := λ st, (Raise e, st).

Fixpoint for_each {A} (l : list A) (body : A → M unit) : M unit :=
  match l with
  | [] => mret ()
  | x :: l' => body x ;; for_each l' body
  end.

Section Methods.
Context {order : DictOrder}.
Variable subprocess_call : world → list string → proc.

Definition spawn (argv : list string) : M Z := λ st,
  match subprocess_call st.2 argv with
  | Exited status => (Ok status, (st.1, st.2 ++ [argv]))
  | NotStarted => (Raise OSError, (st.1, st.2 ++ [argv]))
  end.

Definition validate (secret : string) : M bool :=
  self ← get_self;
  match validator self with
  | None | Some EmptyString => mret true
  | Some path => status ← spawn [path; secret]; mret (bool_decide (status = 0))
  end.

(** The body of the inner loop of [redact], for one string found. *)
Definition consider (secret : string) : M unit :=
  self ← get_self;
  if decide (is_Some (substitutions self !! secret)) then mret ()
  else
    valid ← validate secret;
    if valid : bool then
      self ← get_self;
      let substitution := substitution_string self +:+ Str.of_int (_counter self) in
      set_self {| substitution_string := substitution_string self;
                  patterns := patterns self;
                  substitutions := <[secret := substitution]> (substitutions self);
                  _counter := _counter self + 1;
                  validator := validator self |}
    else mret ().

Definition discover (string : String.string) : M unit :=
  self ← get_self;
  for_each (patterns self) (λ pattern,
    for_each (Re.findall pattern string) consider).

(** The second loop of [redact]. *)
Fixpoint replace_each (l : list (String.string * String.string)) (string : String.string)
    : M String.string :=
  match l with
  | [] => mret string
  | (secret, _) :: rest =>
      self ← get_self;
      match substitutions self !! secret with
      | Some substitution => replace_each rest (Str.replace string secret substitution)
      | None => raise (KeyError secret)
      end
  end.

Definition redact (string : String.string) : M String.string :=
  discover string;;
  self ← get_self;
  replace_each (sorted (iteritems (substitutions self)) (λ i, Str.len i.1) true) string.

End Methods.

(** ** Notions the statements use *)

(** The instance after [secret] was given the next placeholder. *)
Definition assigned (self : Redacter) (secret : string) : Redacter :=
  {| substitution_string := substitution_string self;
     patterns := patterns self;
     substitutions :=
       <[secret := substitution_string self +:+ Str.of_int (_counter self)]>
         (substitutions self);
     _counter := _counter self + 1;
     validator := validator self |}.

(** The strings one call of [redact] considers, in the order of its two
    nested loops: pattern after pattern, and for each pattern its matches
    from left to right. *)
Definition candidates (self : Redacter) (line : string) : list string :=
  concat ((λ pattern, Re.findall pattern line) <$> patterns self).

(** [not self.validator] *)
Definition no_validator (self : Redacter) : Prop :=
  validator self = None ∨ validator self = Some EmptyString.

(** What the loop without a validator does with one string. *)
Definition note (self : Redacter) (secret : string) : Redacter :=
  if decide (is_Some (substitutions self !! secret)) then self
  else assigned self secret.

(** Literal replacements applied one after the other. *)
Definition apply_all (l : list (string * string)) (line : string) : string :=
  foldl (λ s kv, Str.replace s kv.1 kv.2) line l.

(** The replacements of the second loop of [redact], in its order. *)
Definition replacements `{DictOrder} (self : Redacter) : list (string * string) :=
  sorted (iteritems (substitutions self)) (λ i, Str.len i.1) true.

(** The instances a given one can become by calls of [redact], whatever
    else happens to the world in between. *)
Inductive reaches `{DictOrder} (call : world → list string → proc) (r : Redacter)
    : Redacter → Prop :=
  | reaches_here : reaches call r r
  | reaches_redact r' w line out r'' w'' :
      reaches call r r' →
      redact call line (r', w) = (out, (r'', w'')) →
      reaches call r r''.

(** The environments of the examples: one in which no process can be
    started, and one whose validator rejects [10.10.299.1] and accepts any
    other string, as the [ipv4_address] script of the tests does on the
    strings used here. *)
Definition no_process : world → list string → proc := λ _ _, NotStarted.

Definition rejects_299 : world → list string → proc := λ _ argv,
  match argv with
  | [_; secret] => if bool_decide (secret = "10.10.299.1") then Exited 1 else Exited 0
  | _ => NotStarted
  end.

(** [c in s] for one character. *)
Definition has_char (c : ascii) (s : string) : Prop := Str.occurs (String c EmptyString) s.

(** A parser state with further groups under the ones it has. *)
Definition under (extra : list (bool * Re.frame)) (st : Re.pstate) : Re.pstate :=
  Re.PState (Re.p_mode st) (Re.p_top st) (Re.p_rest st ++ extra).

(** The entries [redact] has added since the table was [seeded] carry the
    counter values below the current one, each value once. *)
Definition numbered (seeded : gmap string string) (self : Redacter) : Prop :=
  0 ≤ _counter self ∧
  seeded ⊆ substitutions self ∧
  (∀ secret p, substitutions self !! secret = Some p → seeded !! secret = None →
     ∃ i, 0 ≤ i < _counter self ∧ p = substitution_string self +:+ Str.of_int i) ∧
  (∀ s1 s2 p, seeded !! s1 = None → seeded !! s2 = None →
     substitutions self !! s1 = Some p → substitutions self !! s2 = Some p → s1 = s2).

(** Two instances that differ at most in how "no validator" is written. *)
Definition same_settings (r1 r2 : Redacter) : Prop :=
  patterns r1 = patterns r2 ∧ substitutions r1 = substitutions r2 ∧
  _counter r1 = _counter r2 ∧ substitution_string r1 = substitution_string r2.

(** Calls of [redact] on one instance, line after line, as the tests of
    the repository make them; an exception ends the run. *)
Fixpoint redact_lines `{DictOrder} (call : world → list string → proc)
    (lines : list string) : M (list string) :=
  match lines with
  | [] => mret []
  | line :: rest =>
      out ← redact call line;
      outs ← redact_lines call rest;
      mret (out :: outs)
  end.

(** A new instance, then [redact] on each line: what is returned. *)
Definition session `{DictOrder} (call : world → list string → proc)
    (substitution_string : string) (patterns : option (list string))
    (substitutions : option (gmap string string)) (validator : option string)
    (lines : list string) : result (list string) :=
  self ← __init__ substitution_string patterns substitutions validator;
  (redact_lines call lines (self, [])).1.

(** *** Instances the examples use *)

(** [Redacter('redact', substitutions={'secretA': 'x'})] *)
Definition seeded_instance : Redacter :=
  mkRedacter "redact" [] {["secretA" := "x"]} 0 None.

(** [Redacter('redact', patterns=['secretA', 'secret: (\S+)'])] *)
Definition two_patterns : Redacter :=
  Eval vm_compute in
    match __init__ "redact" (Some ["secretA"; "secret: (\S+)"]) None None with
    | Ok r => r
    | Raise _ => mkRedacter "" [] ∅ 0 None
    end.

(** [Redacter('redact', patterns=['\d+\.\d+\.\d+\.\d+'], validator=...)] *)
Definition ipv4_instance : Redacter :=
  Eval vm_compute in
    match __init__ "redact" (Some ["\d+\.\d+\.\d+\.\d+"]) None (Some "validators/ipv4_address") with
    | Ok r => r
    | Raise _ => mkRedacter "" [] ∅ 0 None
    end.

(** ** The rest of the program: configuration, files, [main] *)

(** *** What the program uses of [os] and of file objects *)

Module Os.

(** [s.endswith(suffix)] *)
Fixpoint endswith (s suffix : string) : bool :=
  (Str.startswith s suffix && (Str.len s =? Str.len suffix)%nat) ||
  match s with
  | EmptyString => false
  | String _ t => endswith t suffix
  end.

(** [os.path.join(a, *p)] of [posixpath]: a component that starts with a
    slash starts the path again. *)
Definition join_step (path b : string) : string :=
  if Str.startswith b "/" then b
  else if bool_decide (path = EmptyString) || endswith path "/" then path +:+ b
  else path +:+ "/" +:+ b.

Definition path_join (a : string) (p : list string) : string := foldl join_step a p.

(** [for line in f]: the lines of a file, each with the newline that ends
    it; the last one has none when the file does not end with one. *)
Fixpoint file_lines (content : string) : list string :=
  match content with
  | EmptyString => []
  | String c t =>
      if bool_decide (c = "010"%char) then String c EmptyString :: file_lines t
      else
        match file_lines t with
        | [] => [String c EmptyString]
        | l :: ls => String c l :: ls
        end
  end.

End Os.

Definition PATTERNS : string := "patterns".
Definition SUBSTITUTIONS : string := "substitutions".
Definition VALIDATORS : string := "validators".

(** The [defaultdict] of [defaultdict]s of [get_config]: per secret name,
    per configuration type, a file path. *)
Abbreviation config := (gmap string (gmap string string)).

(** [config[name][config_type]], [None] when there is none. *)
Definition config_path (c : config) (name config_type : string) : option string :=
  c !! name ≫= (.!! config_type).

(** The order in which the names of a configuration are iterated, open as
    the one of any [dict]. *)
Class ConfigOrder := {
  config_keys : config → list string;
  config_keys_perm : ∀ c, config_keys c ≡ₚ (map_to_list c).*1
}.

Definition name_order : ConfigOrder :=
  {| config_keys := λ c, (map_to_list c).*1; config_keys_perm := λ c, reflexivity _ |}.

(** The arguments [argparse] hands to [main]. *)
Module Args.
Record t := mk {
  conf : list string;
  no_default : bool;
  secrets : option (list string);
  write_substitutions : option string;
  file : string
}.
End Args.

(** How a run of [main] ends. *)
Inductive ending :=
  | Returned
  | SysExit (status : Z)
  | Uncaught (e : exn)
  | IOError (path : string).

(** What a run of [main] leaves: what it wrote to standard output, the
    files it wrote (path and content, in the order written), how it ended. *)
Record outcome := mkOutcome {
  stdout : list string;
  files : list (string * string);
  ended : ending
}.

(** The line [main] writes for one entry of a table. *)
Definition entry_line (secret substitution : string) : string :=
  secret +:+ " = " +:+ substitution +:+ String "010"%char EmptyString.

(** [strip] leaves the string as it is. *)
Definition stripped (s : string) : Prop := Str.strip s = s.

Section Program.
Context {order : DictOrder} {names : ConfigOrder}.
(** [os.path.expanduser('~')] *)
Variable home : string.
(** [os.listdir]: the names in a directory, [None] for [OSError]. *)
Variable listdir : string → option (list string).
(** The content of a file that can be opened for reading. *)
Variable read_file : string → option string.
(** Whether a file can be opened for writing. *)
Variable writable : string → bool.
Variable subprocess_call : world → list string → proc.

Definition CONFIG_DIRS : list string :=
  [Os.path_join home [".redact"]; Os.path_join "/" ["etc"; "redact"]].

(** The body of the innermost loop of [get_config]: reading
    [secrets[name]] makes the entry when there is none. *)
Definition register (d config_type : string) (secrets : config) (name : string) : config :=
  let known := default ∅ (secrets !! name) in
  if decide (is_Some (known !! config_type)) then <[name := known]> secrets
  else <[name := <[config_type := Os.path_join d [config_type; name]]> known]> secrets.

Definition scan (d : string) (secrets : config) (config_type : string) : config :=
  match listdir (Os.path_join d [config_type]) with
  | None => secrets
  | Some files => foldl (register d config_type) secrets files
  end.

Definition get_config (config_dirs : list string) : config :=
  foldl (λ secrets d, foldl (scan d) secrets [PATTERNS; SUBSTITUTIONS; VALIDATORS])
        ∅ config_dirs.

(** The lines [read_uncommented_lines] iterates over, for a file name that
    may be [None]. *)
Definition open_lines (filename : option string) : option (list string) :=
  Os.file_lines <$> (filename ≫= read_file).

(** [Redacter.create] on the files of one secret. *)
Definition create_for (c : config) (secret : string) : result (option Redacter) :=
  create secret
    (open_lines (config_path c secret PATTERNS))
    (open_lines (config_path c secret SUBSTITUTIONS))
    (config_path c secret VALIDATORS).

(** The requested secrets: [args.secrets if args.secrets else config.keys()]. *)
Definition requested (args : Args.t) (c : config) : list string :=
  match Args.secrets args with
  | Some (s :: l) => s :: l
  | _ => config_keys c
  end.

(** [for redacter in redacters: line = redacter.redact(line)] *)
Fixpoint redact_chain (redacters : list Redacter) (line : string) (w : world)
    : result string * list Redacter * world :=
  match redacters with
  | [] => (Ok line, [], w)
  | redacter :: rest =>
      match redact subprocess_call line (redacter, w) with
      | (Ok line', (redacter', w')) =>
          let '(out, rest', w'') := redact_chain rest line' w' in
          (out, redacter' :: rest', w'')
      | (Raise e, (redacter', w')) => (Raise e, redacter' :: rest, w')
      end
  end.

(** The loop over the lines of the file; [out] is what was written so far. *)
Fixpoint process (redacters : list Redacter) (lines : list string) (w : world)
    (out : list string) : list string * option exn * list Redacter * world :=
  match lines with
  | [] => (out, None, redacters, w)
  | line :: rest =>
      match redact_chain redacters line w with
      | (Ok line', redacters', w') => process redacters' rest w' (out ++ [line'])
      | (Raise e, redacters', w') => (out, Some e, redacters', w')
      end
  end.

(** What is written to the file of one instance: a line per entry. *)
Definition dump (redacter : Redacter) : string :=
  foldr String.append EmptyString
    ((λ kv, entry_line kv.1 kv.2) <$> iteritems (substitutions redacter)).

(** The last loop of [main]: stops at the first file that cannot be opened. *)
Fixpoint write_all (dir : string) (redacters : list Redacter)
    (written : list (string * string)) : list (string * string) * ending :=
  match redacters with
  | [] => (written, Returned)
  | redacter :: rest =>
      let path := Os.path_join dir [substitution_string redacter] in
      if writable path then write_all dir rest (written ++ [(path, dump redacter)])
      else (written, IOError path)
  end.

Definition main (args : Args.t) (w : world) : outcome :=
  let config_dirs :=
    if Args.no_default args then Args.conf args else Args.conf args ++ CONFIG_DIRS in
  let c := get_config config_dirs in
  let secrets := requested args c in
  match map_result (create_for c)
          (filter (λ secret, secret ∈ secrets) (config_keys c)) with
  | Raise e => mkOutcome [] [] (Uncaught e)
  | Ok created =>
      match omap id created with
      | [] =>
          mkOutcome ["Couldn't parse any configuration file" +:+ String "010"%char EmptyString]
                    [] (SysExit 1)
      | redacters =>
          match read_file (Args.file args) with
          | None => mkOutcome [] [] (IOError (Args.file args))
          | Some content =>
              match process redacters (Os.file_lines content) w [] with
              | (out, Some e, _, _) => mkOutcome out [] (Uncaught e)
              | (out, None, redacters', _) =>
                  match Args.write_substitutions args with
                  | None | Some EmptyString => mkOutcome out [] Returned
                  | Some dir =>
                      let '(written, e) := write_all dir redacters' [] in
                      mkOutcome out written e
                  end
              end
          end
      end
  end.

End Program.

(** *** Notions the further statements use *)

(** An entry that can be written and read back: secret and placeholder
    are stripped and hold no newline, the placeholder holds no [=], the
    secret does not start with [#]. *)
Definition storable (secret placeholder : string) : Prop :=
  stripped secret ∧ stripped placeholder ∧
  ¬ has_char "010" secret ∧ ¬ has_char "010" placeholder ∧
  ¬ has_char "=" placeholder ∧ Str.startswith secret "#" = false.

(** What is left, after [=], of a written line once it is stripped. *)
Definition after_equals (v : string) : string :=
  match v with
  | EmptyString => EmptyString
  | String _ _ => " " +:+ v
  end.

(** The path a directory gives for a name under a configuration type. *)
Definition found_in (listdir : string → option (list string))
    (d config_type name : string) : option string :=
  match listdir (Os.path_join d [config_type]) with
  | Some files =>
      if decide (name ∈ files) then Some (Os.path_join d [config_type; name]) else None
  | None => None
  end.

(** The path of the first directory that gives one. *)
Fixpoint first_found (listdir : string → option (list string))
    (config_type name : string) (config_dirs : list string) : option string :=
  match config_dirs with
  | [] => None
  | d :: rest =>
      match found_in listdir d config_type name with
      | Some path => Some path
      | None => first_found listdir config_type name rest
      end
  end.

(** Nothing of the line concerns the instance: no pattern matches in it
    and no secret of the table occurs in it. *)
Definition quiet (r : Redacter) (line : string) : Prop :=
  (∀ pattern, pattern ∈ patterns r → Re.findall pattern line = []) ∧
  (∀ secret, is_Some (substitutions r !! secret) → ¬ Str.occurs secret line).

(** The message of [main] when no instance could be built. *)
Definition no_configuration : outcome :=
  mkOutcome ["Couldn't parse any configuration file" +:+ String "010"%char EmptyString]
            [] (SysExit 1).

(** The directories [main] looks into. *)
Definition directories (home : string) (args : Args.t) : list string :=
  if Args.no_default args then Args.conf args
  else Args.conf args ++ CONFIG_DIRS home.

(** [new] before every character of [s] and at its end. *)
Fixpoint interleaved (new s : string) : string :=
  match s with
  | EmptyString => new
  | String c t => new +:+ String c (interleaved new t)
  end.

(** *** A configuration the examples use *)

Definition newline : string := String "010"%char EmptyString.

(** Two configuration directories: the one of the user has patterns for
    [ip] and [pw]; the one of the system has patterns for [ip] and [host],
    substitutions for [host] and a validator for [ip]. *)
Definition example_listdir (path : string) : option (list string) :=
  if bool_decide (path = "/home/u/.redact/patterns") then Some ["ip"; "pw"]
  else if bool_decide (path = "/etc/redact/patterns") then Some ["ip"; "host"]
  else if bool_decide (path = "/etc/redact/substitutions") then Some ["host"]
  else if bool_decide (path = "/etc/redact/validators") then Some ["ip"]
  else None.

Definition example_read_file (path : string) : option string :=
  if bool_decide (path = "/home/u/.redact/patterns/ip")
  then Some ("# addresses" +:+ newline +:+ "\d+\.\d+\.\d+\.\d+" +:+ newline)
  else if bool_decide (path = "/home/u/.redact/patterns/pw")
  then Some ("password: (\S+)" +:+ newline)
  else if bool_decide (path = "/etc/redact/patterns/host") then Some "host\d+"
  else if bool_decide (path = "/etc/redact/substitutions/host")
  then Some ("gw = gateway" +:+ newline +:+ "gw = router" +:+ newline)
  else if bool_decide (path = "in.txt")
  then Some ("from 10.0.0.1 to host2 password: hunter2" +:+ newline +:+
             "gw 10.10.299.1" +:+ newline +:+ "last")
  else None.

Definition example_args : Args.t := Args.mk [] false None (Some "out") "in.txt".

(** [two_patterns] after [redact('secret: x secretA')]. *)
Definition two_patterns_after : Redacter :=
  Eval vm_compute in
    (redact (order:=key_order) no_process "secret: x secretA" (two_patterns, [])).2.1.

(** [Redacter.create] on a substitutions file that gives [a] twice. *)
Definition twice_instance : Redacter :=
  Eval vm_compute in
    match create "redact" None (Some ["a = 1"; "a = 2"]) None with
    | Ok (Some r) => r
    | _ => mkRedacter "" [] ∅ 0 None
    end.

(** An instance whose table holds the empty secret. *)
Definition empty_secret_instance : Redacter :=
  mkRedacter "redact" [] {["" := "-"; "b" := "B"]} 0 None.

(** ** Construction, for any behaviour of [re]

    [compile_regex], [__init__] and [create] use of [re] only [re.compile]
    and the attribute [groups] of what it returns.  Here they are once
    more with these two left open, so that what is proved of them holds for
    every pattern, whatever syntax it uses: nothing is assumed of the
    library.  [Re] above is one instance. *)

Class ReLibrary := {
  re_pattern : Type;
  re_compile : string → result re_pattern;
  re_groups : re_pattern → nat
}.

(** ['({0})'.format(regex)] *)
Definition wrapped (regex : string) : string := "(" +:+ regex +:+ ")".

(** The message of the configuration error for a pattern. *)
Definition too_many_message (regex : string) : string :=
  "regular_expression " +:+ dquote +:+ regex +:+ dquote +:+
  " is invalid. It should have at most 1 capturing group".

Module AnyRe.
Section Library.
Context {re : ReLibrary}.

Record Redacter := mkRedacter {
  substitution_string : string;
  patterns : list re_pattern;
  substitutions : gmap string string;
  _counter : Z;
  validator : option string
}.

Definition compile_regex (regex : string) : result re_pattern :=
  compiled ← re_compile regex;
  if (1 <? re_groups compiled)%nat then
    Raise (AttributeError
             ("regular_expression " +:+ dquote +:+ regex +:+ dquote +:+
              " is invalid. It should have at most 1 capturing group"))
  else if (re_groups compiled =? 0)%nat then
    re_compile ("(" +:+ regex +:+ ")")
  else Ok compiled.

Definition __init__ (substitution_string : string) (patterns : option (list string))
    (substitutions : option (gmap string string)) (validator : option string)
    : result Redacter :=
  if negb (some_patterns patterns) && negb (some_substitutions substitutions) then
    Raise (AttributeError "At least patterns or substitutions must be defined")
  else
    compiled ← (if some_patterns patterns
                then map_result compile_regex (default [] patterns)
                else Ok []);
    Ok {| substitution_string := substitution_string;
          patterns := compiled;
          substitutions := if some_substitutions substitutions
                           then default ∅ substitutions else ∅;
          _counter := 0;
          validator := validator |}.

Definition create (substitution_string : string) (regex_file : option (list string))
    (substitutions_file : option (list string)) (validator_file : option string)
    : result (option Redacter) :=
  let patterns := read_uncommented_lines regex_file in
  let substitutions :=
    dict_of (parse_substitution <$> read_uncommented_lines substitutions_file) in
  match __init__ substitution_string (Some patterns) (Some substitutions) validator_file with
  | Ok r => Ok (Some r)
  | Raise (AttributeError _) => Ok None
  | Raise e => Raise e
  end.

(** How one pattern fares in [compile_regex]: it gets through when it
    compiles with one group, or with none and its wrapped form compiles
    too; it has too many groups; or [re.compile] raises [e], on the pattern
    or, when this has no group, on its wrapped form. *)
Definition gets_through (regex : string) : Prop :=
  ∃ compiled, re_compile regex = Ok compiled ∧
    (re_groups compiled = 1%nat ∨
     (re_groups compiled = 0%nat ∧ ∃ w, re_compile (wrapped regex) = Ok w)).

Definition too_many_groups (regex : string) : Prop :=
  ∃ compiled, re_compile regex = Ok compiled ∧ (1 < re_groups compiled)%nat.

Definition rejected (regex : string) (e : exn) : Prop :=
  re_compile regex = Raise e ∨
  ∃ compiled, re_compile regex = Ok compiled ∧ re_groups compiled = 0%nat ∧
    re_compile (wrapped regex) = Raise e.

(** Where a pattern object of an instance comes from. *)
Definition compiled_from (regex : string) (p : re_pattern) : Prop :=
  (re_compile regex = Ok p ∧ re_groups p = 1%nat) ∨
  (∃ compiled, re_compile regex = Ok compiled ∧ re_groups compiled = 0%nat ∧
     re_compile (wrapped regex) = Ok p).

End Library.
End AnyRe.

(** The fragment [Re] as a library, and its instances as instances of the
    class above. *)
Definition model_re : ReLibrary :=
  {| re_pattern := Re.Pattern; re_compile := Re.compile; re_groups := Re.groups |}.

Definition of_model (r : AnyRe.Redacter (re:=model_re)) : Redacter :=
  {| substitution_string := AnyRe.substitution_string r;
     patterns := AnyRe.patterns r;
     substitutions := AnyRe.substitutions r;
     _counter := AnyRe._counter r;
     validator := AnyRe.validator r |}.

(** ** Further notions of the statements *)

(** The strings of a list that are not known yet, each where it first
    stands. *)
Fixpoint new_ones (known : gset string) (l : list string) : list string :=
  match l with
  | [] => []
  | s :: l' =>
      if decide (s ∈ known) then new_ones known l'
      else s :: new_ones ({[s]} ∪ known) l'
  end.

(** A string the validator accepts whenever it is asked (or there is no
    validator), and one it rejects whenever it is asked. *)
Definition accepts (call : world → list string → proc) (self : Redacter)
    (secret : string) : Prop :=
  no_validator self ∨
  ∃ path, validator self = Some path ∧ ∀ w, call w [path; secret] = Exited 0.

Definition rejects (call : world → list string → proc) (self : Redacter)
    (secret : string) : Prop :=
  ∃ path, validator self = Some path ∧ path ≠ EmptyString ∧
    ∀ w, ∃ status, call w [path; secret] = Exited status ∧ status ≠ 0.

(** A dict with the same entries as under [key_order], iterated the other
    way round: two dicts that are equal can be iterated differently when
    their entries were put in in a different order. *)
Definition reverse_order : DictOrder :=
  {| iteritems := λ d, reverse (map_to_list d);
     iteritems_perm := λ d, reverse_Permutation (map_to_list d) |}.

(** [Redacter('redact', substitutions={'ab': 'X', 'bg': 'Y'})] *)
Definition overlapping_instance : Redacter :=
  mkRedacter "redact" [] {["ab" := "X"; "bg" := "Y"]} 0 None.

(** * Properties *)

(** ** The model on the tests of the repository *)

Example replace_all_occurrences : Str.replace "secretAsecretA" "secretA" "x" = "xx".
Proof. reflexivity. Qed.

Example replace_empty_old : Str.replace "abc" "" "-" = "-a-b-c-".
Proof. reflexivity. Qed.

Example replace_non_overlapping : Str.replace "aaa" "aa" "b" = "ba".
Proof. reflexivity. Qed.

Example split_keeps_empty : Str.split "=" "a=b=" = ["a"; "b"; ""].
Proof. reflexivity. Qed.

Example strip_both : Str.strip "  a b  " = "a b".
Proof. reflexivity. Qed.

Example of_int_examples : Str.of_int 0 = "0" ∧ Str.of_int 12 = "12".
Proof. split; reflexivity. Qed.

Example findall_group : findall_of "secret: (\S+)" "secret: x secretA" = Ok ["x"].
Proof. vm_compute. reflexivity. Qed.

Example findall_star : findall_of "(a*)" "baac" = Ok [""; "aa"; ""; ""].
Proof. vm_compute. reflexivity. Qed.

Example findall_eol :
  findall_of "using password (.+)$" "ok using password password" = Ok ["password"].
Proof. vm_compute. reflexivity. Qed.

Example findall_ipv4 :
  findall_of "(\d+\.\d+\.\d+\.\d+)" "from 10.10.255.1 to 10.0.0.12." = Ok ["10.10.255.1"; "10.0.0.12"].
Proof. vm_compute. reflexivity. Qed.

Example findall_unmatched_group : findall_of "(a)|b" "ab" = Ok ["a"; ""].
Proof. vm_compute. reflexivity. Qed.

Example compile_unbalanced : Re.compile "(" = Raise (ReError "unbalanced parenthesis").
Proof. reflexivity. Qed.

Example compile_nothing_to_repeat : Re.compile "a|*" = Raise (ReError "nothing to repeat").
Proof. reflexivity. Qed.

Example sorted_is_stable :
  sorted [("a", 1); ("bb", 2); ("c", 3); ("dd", 4)] (λ i, Str.len i.1) true
  = [("bb", 2); ("dd", 4); ("a", 1); ("c", 3)].
Proof. reflexivity. Qed.

Example test_redact_with_substitutions :
  session (H:=key_order) no_process "redact" None
    (Some {["secretA" := "x"; "secretB" := "y"]}) None
    ["secretA"; " secretA"; "secretA "; "secretAsecretA"; "secretA secretA"; "secretAsecretB"]
  = Ok ["x"; " x"; "x "; "xx"; "x x"; "xy"].
Proof. vm_compute. reflexivity. Qed.

Example test_redact_with_patterns :
  session (H:=key_order) no_process "redact" (Some ["secretA"; "secret: (\S+)"]) None None
    ["secretA"; "secret: x"; "x"]
  = Ok ["redact0"; "secret: redact1"; "redact1"].
Proof. vm_compute. reflexivity. Qed.

Example test_redact_with_patterns_substring :
  session (H:=key_order) no_process "redact" (Some ["A\S*"]) None None
    ["A"; "AA"; "AB"; "XAB"]
  = Ok ["redact0"; "redact1"; "redact2"; "Xredact2"].
Proof. vm_compute. reflexivity. Qed.

Example test_redact_with_patterns_and_substitutions :
  session (H:=key_order) no_process "redact" (Some ["secret: (\S+)"])
    (Some {["test" := "x"]}) None
    ["secret: test"; "secret: te"; "secret: tes"; "test"; "te"; "tes"]
  = Ok ["secret: x"; "secret: redact0"; "secret: redact1"; "x"; "redact0"; "redact1"].
Proof. vm_compute. reflexivity. Qed.

Example test_redact_with_validator :
  session (H:=key_order) rejects_299 "redact" (Some ["\d+\.\d+\.\d+\.\d+"]) None
    (Some "validators/ipv4_address") ["10.10.255.1"; "10.10.299.1"]
  = Ok ["redact0"; "10.10.299.1"].
Proof. vm_compute. reflexivity. Qed.

Example longest_secret_first :
  session (H:=key_order) no_process "redact" None
    (Some {["10.10.1.1" := "a"; "10.10.1.10" := "b"]}) None ["10.10.1.10 10.10.1.1"]
  = Ok ["b a"].
Proof. vm_compute. reflexivity. Qed.

(** ** Strings *)

Lemma append_inj_l base s1 s2 : base +:+ s1 = base +:+ s2 → s1 = s2.
Proof. induction base as [|c base IH]; simpl; [done | intros [= H]; auto]. Qed.

Lemma startswith_app s old :
  Str.startswith s old = true → ∃ post, s = old +:+ post.
Proof.
  revert s. induction old as [|a old IH]; intros s H.
  - exists s. reflexivity.
  - destruct s as [|b s]; simpl in H; [done|].
    destruct (decide (a = b)) as [->|]; [|done].
    destruct (IH _ H) as [post ->]. by exists post.
Qed.

Lemma startswith_occurs s old : Str.startswith s old = true → Str.occurs old s.
Proof. intros [post ->]%startswith_app. by exists EmptyString, post. Qed.

Lemma occurs_tail old c t : Str.occurs old t → Str.occurs old (String c t).
Proof. intros (pre & post & ->). by exists (String c pre), post. Qed.

Lemma occurs_empty s : Str.occurs EmptyString s.
Proof. by exists EmptyString, s. Qed.

(** Replacing a string that does not occur changes nothing. *)
Lemma replace_absent s old new : ¬ Str.occurs old s → Str.replace s old new = s.
Proof.
  unfold Str.replace. induction s as [|c t IH]; intros Hno.
  - destruct old; [|done]. destruct Hno. apply occurs_empty.
  - change (Str.replace_from old new (String c t) 0) with
      (if Str.startswith (String c t) old
       then new +:+ match old with
                    | EmptyString => String c (Str.replace_from old new t 0)
                    | String _ old' => Str.replace_from old new t (Str.len old')
                    end
       else String c (Str.replace_from old new t 0)).
    destruct (Str.startswith (String c t) old) eqn:E.
    + by apply startswith_occurs in E.
    + rewrite IH; [done|]. intros H. by apply Hno, occurs_tail.
Qed.

Lemma of_int_inj a b : Str.of_int a = Str.of_int b → a = b.
Proof.
  unfold Str.of_int. intros H.
  assert (Some (Z.to_int a) = Some (Z.to_int b)) as [= E].
  { rewrite <- !NilEmpty.isi. by rewrite H. }
  rewrite <- (DecimalZ.of_to a), <- (DecimalZ.of_to b). by rewrite E.
Qed.

(** Placeholders made from different counter values differ. *)
Lemma placeholder_inj base a b :
  base +:+ Str.of_int a = base +:+ Str.of_int b → a = b.
Proof. intros H. by apply of_int_inj, (append_inj_l base). Qed.

(** *** [split] and [join] *)

Lemma split_nonempty sep s : Str.split sep s ≠ [].
Proof. destruct s as [|c t]; simpl; [done|]. case_decide; [done|]. by destruct (Str.split sep t). Qed.

Lemma split_no_sep sep s : ¬ has_char sep s → Str.split sep s = [s].
Proof.
  induction s as [|c t IH]; intros Hno; simpl; [done|].
  case_decide as E.
  - subst. destruct Hno. by exists EmptyString, t.
  - rewrite IH; [done|]. intros H. by apply Hno, occurs_tail.
Qed.

Lemma split_app sep pre post :
  ¬ has_char sep post →
  Str.split sep (pre +:+ String sep post) = Str.split sep pre ++ [post].
Proof.
  intros Hno. induction pre as [|c t IH]; simpl.
  - rewrite decide_True by done. by rewrite split_no_sep.
  - rewrite IH. case_decide; [done|].
    pose proof (split_nonempty sep t). by destruct (Str.split sep t).
Qed.

Lemma join_split sep s : Str.join (String sep EmptyString) (Str.split sep s) = s.
Proof.
  induction s as [|c t IH]; simpl; [done|].
  case_decide as E.
  - subst. pose proof (split_nonempty sep t).
    destruct (Str.split sep t) eqn:Es; [done|]. simpl in *. congruence.
  - pose proof (split_nonempty sep t).
    destruct (Str.split sep t) as [|h r] eqn:Es; [done|].
    destruct r; simpl in *; congruence.
Qed.

(** ** [sorted] *)

Lemma insert_sorted_perm {A} (before : A → A → bool) x l :
  insert_sorted before x l ≡ₚ x :: l.
Proof.
  induction l as [|y l IH]; simpl; [done|].
  destruct (before x y); [done|]. rewrite IH. apply Permutation_swap.
Qed.

Lemma sorted_perm {A} (l : list A) key reverse : sorted l key reverse ≡ₚ l.
Proof.
  unfold sorted. induction l as [|x l IH]; simpl; [done|].
  by rewrite insert_sorted_perm, IH.
Qed.

(** With [reverse=True] the keys never increase along the result. *)
Lemma sorted_descending {A} (l : list A) key :
  StronglySorted (λ a b, (key b ≤ key a)%nat) (sorted l key true).
Proof.
  unfold sorted. induction l as [|x l IH]; simpl; [constructor|].
  revert IH. generalize (foldr (insert_sorted (λ x y : A, (key y <=? key x)%nat)) [] l).
  clear l. intros l Hl. induction Hl as [|y l Hl IH Hy]; simpl.
  - repeat constructor.
  - destruct (Nat.leb_spec (key y) (key x)) as [Hle|Hlt].
    + constructor; [by constructor|]. constructor; [done|].
      eapply Forall_impl; [exact Hy|]. simpl. lia.
    + constructor; [done|]. rewrite insert_sorted_perm. constructor; [lia | done].
Qed.

(** In a list whose keys never increase, an entry with a strictly larger
    key stands before one with a smaller key. *)
Lemma descending_longer_first {A} (key : A → nat) (l : list A) i j a b :
  StronglySorted (λ a b, (key b ≤ key a)%nat) l →
  l !! i = Some a → l !! j = Some b → (key b < key a)%nat → (i < j)%nat.
Proof.
  intros Hs. revert i j. induction Hs as [|x l Hs IH Hx]; intros i j Hi Hj Hlt; [done|].
  destruct i as [|i], j as [|j]; simpl in *; simplify_eq; try lia.
  - rewrite Forall_forall in Hx. apply list_elem_of_lookup_2 in Hi.
    specialize (Hx _ Hi). lia.
  - specialize (IH _ _ Hi Hj Hlt). lia.
Qed.

(** A list is sorted in one way only when the order decides between any
    two of its elements. *)
Lemma sorted_unique {A} (R : A → A → Prop) (l1 l2 : list A) :
  l1 ≡ₚ l2 → StronglySorted R l1 → StronglySorted R l2 →
  (∀ x y, x ∈ l1 → y ∈ l1 → R x y → R y x → x = y) → l1 = l2.
Proof.
  revert l2. induction l1 as [|x l1 IH]; intros l2 Hp H1 H2 Hanti.
  { by apply Permutation_nil_l in Hp. }
  destruct l2 as [|y l2]; [by apply Permutation_nil_r in Hp|].
  apply StronglySorted_inv in H1 as [H1 Hx]. apply StronglySorted_inv in H2 as [H2 Hy].
  rewrite Forall_forall in Hx, Hy.
  assert (x = y) as <-.
  { assert (x ∈ y :: l2) as Hxin by (rewrite <- Hp; by left).
    assert (y ∈ x :: l1) as Hyin by (rewrite Hp; by left).
    apply elem_of_cons in Hxin as [?|Hxin]; [done|].
    apply elem_of_cons in Hyin as [?|Hyin]; [done|].
    apply Hanti; [by left|by right|by apply Hx|by apply Hy]. }
  f_equal. apply IH; [by apply Permutation_cons_inv in Hp|done|done|].
  intros a b Ha Hb. apply Hanti; by right.
Qed.

(** ** The loops *)

Lemma for_each_app {A} (l1 l2 : list A) (body : A → M unit) st :
  for_each (l1 ++ l2) body st =
  match for_each l1 body st with
  | (Ok _, st') => for_each l2 body st'
  | (Raise e, st') => (Raise e, st')
  end.
Proof.
  revert st. induction l1 as [|x l1 IH]; intros st; simpl; [done|].
  unfold mbind, M_bind. destruct (body x st) as [[[]|e] st']; [apply IH | done].
Qed.

(** An invariant of the loop body at the elements of the list is one of
    the loop. *)
Lemma for_each_inv {A} (I : state → Prop) (l : list A) (body : A → M unit) :
  (∀ x st o st', x ∈ l → I st → body x st = (o, st') → I st') →
  ∀ st o st', I st → for_each l body st = (o, st') → I st'.
Proof.
  induction l as [|x l IH]; intros Hbody st o st' HI Hrun; simpl in Hrun.
  - by injection Hrun as _ <-.
  - unfold mbind, M_bind in Hrun. destruct (body x st) as [[[]|e] st1] eqn:Hx.
    + eapply IH; [|eapply Hbody; [|exact HI|exact Hx]|exact Hrun].
      * intros. eapply Hbody; [|done..]. by right.
      * by left.
    + injection Hrun as _ <-. eapply Hbody; [|exact HI|exact Hx]. by left.
Qed.

Section Loops.
Context {order : DictOrder}.
Variable call : world → list string → proc.

(** What the body of the inner loop does, case by case. *)
Lemma consider_cases secret self w :
  consider call secret (self, w) =
  if decide (is_Some (substitutions self !! secret)) then (Ok (), (self, w))
  else
    match validator self with
    | None | Some EmptyString => (Ok (), (assigned self secret, w))
    | Some path =>
        match call w [path; secret] with
        | Exited status =>
            (Ok (), (if bool_decide (status = 0) then assigned self secret else self,
                     w ++ [[path; secret]]))
        | NotStarted => (Raise OSError, (self, w ++ [[path; secret]]))
        end
    end.
Proof.
  cbv [consider validate mbind M_bind get_self spawn mret M_ret set_self fst snd].
  case_decide; [done|].
  destruct (validator self) as [[|a path]|] eqn:Ev; [done| |done].
  destruct (call w _) as [status|]; [|done].
  by case_bool_decide.
Qed.

(** The two nested loops go through [candidates] once, in order. *)
Lemma discover_flat line self w :
  discover call line (self, w) = for_each (candidates self line) (consider call) (self, w).
Proof.
  unfold discover, candidates, mbind at 1, M_bind at 1, get_self. simpl.
  generalize (patterns self) (self, w). intros ps.
  induction ps as [|p ps IH]; intros st; simpl; [done|].
  rewrite for_each_app. unfold mbind, M_bind.
  destruct (for_each (Re.findall p line) (consider call) st) as [[[]|e] st']; [apply IH | done].
Qed.

(** The second loop changes nothing and cannot fail when it is given
    entries of the table. *)
Lemma replace_each_entries l line st :
  (∀ kv, kv ∈ l → substitutions st.1 !! kv.1 = Some kv.2) →
  replace_each l line st = (Ok (apply_all l line), st).
Proof.
  revert line. induction l as [|[k v] l IH]; intros line Hl; simpl; [done|].
  cbv [mbind M_bind get_self]. cbv beta.
  pose proof (Hl (k, v) ltac:(by left)) as Hk. simpl in Hk. rewrite Hk.
  apply IH. intros kv Hkv. apply Hl. by right.
Qed.

Lemma replacements_entries self kv :
  kv ∈ replacements self ↔ substitutions self !! kv.1 = Some kv.2.
Proof.
  unfold replacements. rewrite sorted_perm, iteritems_perm.
  destruct kv as [k v]. apply elem_of_map_to_list.
Qed.

(** [redact] is the first loop followed by the replacements. *)
Lemma redact_unfold line st :
  redact call line st =
  match discover call line st with
  | (Ok _, st') => (Ok (apply_all (replacements st'.1) line), st')
  | (Raise e, st') => (Raise e, st')
  end.
Proof.
  unfold redact, mbind at 1, M_bind at 1.
  destruct (discover call line st) as [[[]|e] st']; [|done].
  unfold mbind, M_bind, get_self. simpl.
  apply replace_each_entries. intros kv. apply replacements_entries.
Qed.

End Loops.

(** ** What one call can change *)

Section Effects.
Context {order : DictOrder}.
Variable call : world → list string → proc.

(** A string already in the table is passed over; any other one is given
    the next placeholder or leaves the instance as it is, after at most one
    run of the validator, on that string. *)
Lemma consider_effect secret st o st' :
  consider call secret st = (o, st') →
  (is_Some (substitutions st.1 !! secret) ∧ o = Ok () ∧ st' = st) ∨
  (substitutions st.1 !! secret = None ∧
   (st'.1 = st.1 ∨ st'.1 = assigned st.1 secret) ∧
   (st'.2 = st.2 ∨ ∃ path, st'.2 = st.2 ++ [[path; secret]])).
Proof.
  destruct st as [self w]. rewrite consider_cases. simpl.
  case_decide as Hin.
  { intros [= <- <-]. by left. }
  intros H. right. split; [by apply eq_None_not_Some|].
  destruct (validator self) as [[|a path]|].
  - injection H as _ <-. simpl. auto.
  - destruct (call w _) as [status|]; injection H as _ <-; simpl.
    + split; [case_bool_decide; auto | eauto].
    + eauto.
  - injection H as _ <-. simpl. auto.
Qed.

(** A property of the instance kept by every assignment is kept by the
    first loop, hence by [redact], hence along [reaches]. *)
Lemma discover_preserves (P : Redacter → Prop) :
  (∀ self secret, P self → substitutions self !! secret = None → P (assigned self secret)) →
  ∀ line st o st', P st.1 → discover call line st = (o, st') → P st'.1.
Proof.
  intros Hassign line [self w] o st' HP. rewrite discover_flat.
  apply (for_each_inv (λ st, P st.1)); [|exact HP].
  intros secret st1 o1 st2 _ HP1 Hc.
  destruct (consider_effect _ _ _ _ Hc) as [(_ & _ & ->)|(Hnone & [->| ->] & _)]; auto.
Qed.

Lemma redact_preserves (P : Redacter → Prop) :
  (∀ self secret, P self → substitutions self !! secret = None → P (assigned self secret)) →
  ∀ line st o st', P st.1 → redact call line st = (o, st') → P st'.1.
Proof.
  intros Hassign line st o st' HP. rewrite redact_unfold.
  destruct (discover call line st) as [[[]|e] st1] eqn:Hd; intros [= _ <-];
    eapply discover_preserves; eauto.
Qed.

Lemma reaches_preserves (P : Redacter → Prop) r r' :
  (∀ self secret, P self → substitutions self !! secret = None → P (assigned self secret)) →
  P r → reaches call r r' → P r'.
Proof.
  intros Hassign HP Hr. induction Hr as [|r' w line out r'' w'' _ IH Hstep]; [done|].
  apply (redact_preserves P Hassign line (r', w) out (r'', w'') IH Hstep).
Qed.

(** The table only grows. *)
Lemma reaches_grows r r' : reaches call r r' → substitutions r ⊆ substitutions r'.
Proof.
  intros Hr. apply (reaches_preserves (λ r', substitutions r ⊆ substitutions r') r r'); [|done|done].
  intros self secret Hsub Hnone. simpl. etrans; [exact Hsub|]. by apply insert_subseteq.
Qed.

(** The validator is only run on strings the table does not hold. *)
Lemma discover_calls line self w o st' :
  discover call line (self, w) = (o, st') →
  substitutions self ⊆ substitutions st'.1 ∧
  ∃ calls, st'.2 = w ++ calls ∧
    ∀ argv, argv ∈ calls → ∃ path secret,
      argv = [path; secret] ∧ substitutions self !! secret = None.
Proof.
  rewrite discover_flat.
  apply (for_each_inv (λ st, substitutions self ⊆ substitutions st.1 ∧
    ∃ calls, st.2 = w ++ calls ∧
      ∀ argv, argv ∈ calls → ∃ path secret,
        argv = [path; secret] ∧ substitutions self !! secret = None)).
  - intros secret st1 o1 st2 _ (Hsub & calls & Hw & Hcalls) Hc.
    destruct (consider_effect _ _ _ _ Hc) as [(_ & _ & ->)|(Hnone & Hself & Hworld)].
    { eauto. }
    assert (substitutions self !! secret = None) as Hnone0.
    { destruct (substitutions self !! secret) as [v|] eqn:E; [|done].
      by rewrite (lookup_weaken _ _ _ _ E Hsub) in Hnone. }
    split.
    + destruct Hself as [-> | ->]; [done|]. simpl. etrans; [exact Hsub|].
      by apply insert_subseteq.
    + destruct Hworld as [-> | [path ->]]; [eauto|].
      exists (calls ++ [[path; secret]]). rewrite Hw, <- (assoc_L (++)). split; [done|].
      intros argv [?| ->%list_elem_of_singleton]%elem_of_app; eauto.
  - split; [done|]. exists []. rewrite (right_id_L [] (++)). split; [done|].
    intros ? []%elem_of_nil.
Qed.

End Effects.

(** ** The secrets one call adds *)

(** Strings that are new and all different, assigned one after the other,
    take the counter values from the current one on, in the order of the
    list; nothing else changes. *)
Lemma assigned_all l self :
  NoDup l → (∀ s, s ∈ l → substitutions self !! s = None) →
  substitution_string (foldl assigned self l) = substitution_string self ∧
  _counter (foldl assigned self l) = _counter self + Z.of_nat (length l) ∧
  (∀ (i : nat) s, l !! i = Some s →
     substitutions (foldl assigned self l) !! s
     = Some (substitution_string self +:+ Str.of_int (_counter self + Z.of_nat i))) ∧
  (∀ s, s ∉ l → substitutions (foldl assigned self l) !! s = substitutions self !! s).
Proof.
  revert self. induction l as [|x l IH]; intros self Hnd Hfresh; simpl.
  { split_and!; [done|lia|done|done]. }
  apply NoDup_cons in Hnd as [Hx Hnd].
  destruct (IH (assigned self x) Hnd) as (Hb & Hc & Hidx & Hout).
  { intros s Hs. simpl. rewrite lookup_insert_ne by (intros ->; done).
    apply Hfresh. by right. }
  simpl in Hb, Hc, Hidx. split_and!.
  - done.
  - rewrite Hc. lia.
  - intros [|i] s Hs; simpl in Hs.
    + injection Hs as ->. rewrite (Hout _ Hx). simpl. rewrite lookup_insert_eq.
      do 3 f_equal. lia.
    + rewrite (Hidx _ _ Hs). do 3 f_equal. lia.
  - intros s [Hne Hs]%not_elem_of_cons. rewrite (Hout _ Hs). simpl.
    by rewrite lookup_insert_ne.
Qed.

Section Accepted.
Context {order : DictOrder}.
Variable call : world → list string → proc.

(** The first loop over a list of strings: the strings it assigns are some
    of the list, in the order of the list, each once and none of them known
    before; the instance it leaves is the one it found with these assigned
    one after the other.  Without a validator they are all the new strings
    of the list; a string the validator accepts is among them when the loop
    gets to its end, a string it rejects never is. *)
Lemma for_each_consider_accepted l r w o r' w' :
  for_each l (consider call) (r, w) = (o, (r', w')) →
  ∃ accepted,
    sublist accepted l ∧ NoDup accepted ∧
    (∀ s, s ∈ accepted → substitutions r !! s = None) ∧
    r' = foldl assigned r accepted ∧
    (no_validator r →
       accepted = new_ones (dom (substitutions r)) l ∧ o = Ok () ∧ w' = w) ∧
    (o = Ok () → ∀ s, s ∈ l → accepts call r s → substitutions r !! s = None →
       s ∈ accepted) ∧
    (∀ s, rejects call r s → s ∉ accepted).
Proof.
  revert r w. induction l as [|x l IH]; intros r w; simpl.
  { intros [= <- <- <-]. exists [].
    split_and!; [constructor|constructor|set_solver|done|done|set_solver|set_solver]. }
  unfold mbind, M_bind. rewrite consider_cases.
  case_decide as Hin.
  { intros H. destruct (IH _ _ H) as (acc & Hsub & Hnd & Hfresh & Heq & Hnov & Hacc & Hrej).
    exists acc. split_and!; [by apply sublist_cons|done|done|done| | |done].
    - intros Hv. rewrite decide_True by (by apply elem_of_dom). auto.
    - intros Ho s [->|Hs]%elem_of_cons Ha Hnone; [|eauto].
      rewrite Hnone in Hin. by destruct Hin. }
  assert (substitutions r !! x = None) as Hnone by (by apply eq_None_not_Some).
  assert (∀ w1, (no_validator r → w1 = w) → ¬ rejects call r x →
            for_each l (consider call) (assigned r x, w1) = (o, (r', w')) →
            ∃ accepted,
              sublist accepted (x :: l) ∧ NoDup accepted ∧
              (∀ s, s ∈ accepted → substitutions r !! s = None) ∧
              r' = foldl assigned r accepted ∧
              (no_validator r →
                 accepted = (if decide (x ∈ dom (substitutions r))
                             then new_ones (dom (substitutions r)) l
                             else x :: new_ones ({[x]} ∪ dom (substitutions r)) l) ∧
                 o = Ok () ∧ w' = w) ∧
              (o = Ok () → ∀ s, s ∈ x :: l → accepts call r s →
                 substitutions r !! s = None → s ∈ accepted) ∧
              (∀ s, rejects call r s → s ∉ accepted)) as Hyes.
  { intros w1 Hw Hnr H.
    destruct (IH _ _ H) as (acc & Hsub & Hnd & Hfresh & Heq & Hnov & Hacc & Hrej).
    exists (x :: acc). split_and!.
    - by apply sublist_skip.
    - apply NoDup_cons. split; [|done]. intros Hx. specialize (Hfresh _ Hx).
      simpl in Hfresh. by rewrite lookup_insert_eq in Hfresh.
    - intros s [->|Hs]%elem_of_cons; [done|]. specialize (Hfresh _ Hs). simpl in Hfresh.
      by apply lookup_insert_None in Hfresh as [? _].
    - done.
    - intros Hv. rewrite decide_False by (by apply not_elem_of_dom).
      destruct (Hnov Hv) as (-> & -> & ->). simpl. rewrite dom_insert_L.
      split_and!; [done|done|by apply Hw].
    - intros Ho s Hs Ha Hn. destruct (decide (s = x)) as [->|Hne]; [by left|right].
      apply Hacc; [done| |exact Ha|].
      + by apply elem_of_cons in Hs as [?|?].
      + simpl. by rewrite lookup_insert_ne.
    - intros s Hr. apply not_elem_of_cons. split; [intros ->; by apply Hnr|].
      apply Hrej. exact Hr. }
  destruct (validator r) as [[|a path]|] eqn:Ev.
  - apply Hyes; [done|]. intros (path & Hp & Hne & _). congruence.
  - destruct (call w [String a path; x]) as [status|] eqn:Hcall.
    + case_bool_decide as Hs.
      * subst status. apply Hyes.
        -- intros [Hv|Hv]; congruence.
        -- intros (path' & Hp & _ & Hr). destruct (Hr w) as (status & Hst & Hne).
           assert (path' = String a path) as -> by congruence. congruence.
      * intros H.
        destruct (IH _ _ H) as (acc & Hsub & Hnd & Hfresh & Heq & Hnov & Hacc & Hrej).
        exists acc. split_and!; [by apply sublist_cons|done|done|done| | |done].
        -- intros [Hv|Hv]; congruence.
        -- intros Ho s [->|Hin']%elem_of_cons Ha Hn; [|eauto].
           destruct Ha as [[Hv|Hv]|(path' & Hp & Hr)]; [congruence..|].
           assert (path' = String a path) as -> by congruence.
           rewrite Hr in Hcall. congruence.
    + intros [= <- <- <-]. exists [].
      split_and!; [apply sublist_nil_l|constructor|set_solver|done| |done|set_solver].
      intros [Hv|Hv]; congruence.
  - apply Hyes; [done|]. intros (path & Hp & _). congruence.
Qed.

(** The same for a call of [redact], over the candidates of the line. *)
Lemma redact_accepted line r w o r' w' :
  redact call line (r, w) = (o, (r', w')) →
  ∃ accepted,
    sublist accepted (candidates r line) ∧ NoDup accepted ∧
    (∀ s, s ∈ accepted → substitutions r !! s = None) ∧
    r' = foldl assigned r accepted ∧
    (no_validator r →
       accepted = new_ones (dom (substitutions r)) (candidates r line) ∧
       (∃ out, o = Ok out) ∧ w' = w) ∧
    ((∃ out, o = Ok out) → ∀ s, s ∈ candidates r line → accepts call r s →
       substitutions r !! s = None → s ∈ accepted) ∧
    (∀ s, rejects call r s → s ∉ accepted).
Proof.
  rewrite redact_unfold, discover_flat.
  destruct (for_each _ _ _) as [o1 [r1 w1]] eqn:Hloop.
  destruct (for_each_consider_accepted _ _ _ _ _ _ Hloop)
    as (acc & Hsub & Hnd & Hfresh & Heq & Hnov & Hacc & Hrej).
  intros Hout. exists acc.
  assert (r1 = r' ∧ w1 = w' ∧ ((∃ out, o = Ok out) ↔ o1 = Ok ())) as (<- & <- & Hiff).
  { destruct o1 as [[]|e]; injection Hout as <- <- <-; split_and!; try done.
    - split; eauto.
    - split; [by intros [? ?]|done]. }
  split_and!; [done..| | |done].
  - intros Hv. destruct (Hnov Hv) as (? & ? & ?). split_and!; [done| |done]. by apply Hiff.
  - intros Ho. apply Hacc. by apply Hiff.
Qed.

End Accepted.

(** ** The substitution table *)

Lemma numbered_assigned seeded self secret :
  numbered seeded self → substitutions self !! secret = None →
  numbered seeded (assigned self secret).
Proof.
  intros (Hc & Hsub & Hnum & Hinj) Hnone. unfold numbered. simpl.
  split_and!.
  - lia.
  - etrans; [exact Hsub|]. by apply insert_subseteq.
  - intros s p Hs Hseed. destruct (decide (s = secret)) as [->|Hne].
    + rewrite lookup_insert_eq in Hs. injection Hs as <-. exists (_counter self). split; [lia|done].
    + rewrite lookup_insert_ne in Hs by done.
      destruct (Hnum _ _ Hs Hseed) as (i & Hi & ->). exists i. split; [lia|done].
  - intros s1 s2 p H1 H2 Hs1 Hs2.
    destruct (decide (s1 = secret)) as [->|Hne1], (decide (s2 = secret)) as [->|Hne2]; [done|..].
    + rewrite lookup_insert_eq in Hs1. rewrite lookup_insert_ne in Hs2 by done.
      injection Hs1 as <-. destruct (Hnum _ _ Hs2 H2) as (i & Hi & Hp).
      apply placeholder_inj in Hp. lia.
    + rewrite lookup_insert_eq in Hs2. rewrite lookup_insert_ne in Hs1 by done.
      injection Hs2 as <-. destruct (Hnum _ _ Hs1 H1) as (i & Hi & Hp).
      apply placeholder_inj in Hp. lia.
    + rewrite lookup_insert_ne in Hs1, Hs2 by done. eauto.
Qed.

Lemma init_fields base pats subs v r :
  __init__ base pats subs v = Ok r →
  substitution_string r = base ∧ _counter r = 0 ∧ validator r = v ∧
  substitutions r = (if some_substitutions subs then default ∅ subs else ∅).
Proof.
  unfold __init__. destruct (negb _ && negb _); [done|].
  destruct (if some_patterns pats then _ else _) as [ps|e]; simpl; [|done].
  by intros [= <-].
Qed.

Section Table.
Context {order : DictOrder}.
Variable call : world → list string → proc.


(** C1. Stability of the substitution table: an entry of the table, seeded
    or discovered, is still there with the same placeholder after any later
    calls of [redact]; meeting its secret again as a candidate assigns
    nothing and does not run the validator on it; a call never removes or
    changes an entry, and its replacements use the entry as it is. *)
Theorem table_is_stable r r' secret placeholder :
  substitutions r !! secret = Some placeholder →
  reaches call r r' →
  substitutions r' !! secret = Some placeholder ∧
  (∀ w, consider call secret (r', w) = (Ok (), (r', w))) ∧
  (∀ line w out r'' w'',
     redact call line (r', w) = (out, (r'', w'')) →
     substitutions r' ⊆ substitutions r'' ∧
     (∃ calls, w'' = w ++ calls ∧ ∀ path, [path; secret] ∉ calls) ∧
     (∀ line', out = Ok line' →
        line' = apply_all (replacements r'') line ∧
        (secret, placeholder) ∈ replacements r'')).
Proof.
  intros Hin Hr.
  assert (substitutions r' !! secret = Some placeholder) as Hin'.
  { eapply lookup_weaken; [exact Hin|]. by apply (reaches_grows call). }
  split_and!; [done|..].
  - intros w. rewrite consider_cases. by rewrite decide_True by (rewrite Hin'; eauto).
  - intros line w out r'' w''. rewrite redact_unfold.
    destruct (discover call line (r', w)) as [o1 st1] eqn:Hd.
    destruct (discover_calls call _ _ _ _ _ Hd) as (Hsub & calls & Hw & Hcalls).
    intros Hout.
    assert (st1 = (r'', w'')) as -> by (destruct o1 as [[]|]; by injection Hout).
    simpl in *. split_and!; [done| |].
    + exists calls. split; [done|]. intros path Hp.
      destruct (Hcalls _ Hp) as (path' & secret' & [= _ <-] & Hnone). congruence.
    + intros line' ->. destruct o1 as [[]|]; [|done]. injection Hout as <-.
      split; [done|]. apply replacements_entries. simpl.
      eapply lookup_weaken; [exact Hin'|done].
Qed.


End Table.

(** ** Patterns *)

(** The parser only looks at the group being read and, to close it, at the
    one under it: groups further down are carried along. *)

Lemma quantify_under lo hi st st' extra :
  Re.quantify lo hi st = Ok st' →
  Re.quantify lo hi (under extra st) = Ok (under extra st').
Proof.
  unfold Re.quantify. simpl.
  destruct (Re.items (Re.p_top st)) as [|[] its]; try done. by intros [= <-].
Qed.

Lemma question_under st st' extra :
  Re.question st = Ok st' → Re.question (under extra st) = Ok (under extra st').
Proof.
  unfold Re.question. simpl.
  destruct (Re.items (Re.p_top st)) as [|[| |lo hi [] cs| | | | |] its] eqn:E;
    try (intros H; apply (quantify_under _ _ _ _ extra) in H; exact H).
  by intros [= <-].
Qed.

Lemma step_normal_under st c st' extra :
  Re.step_normal st c = Ok st' →
  Re.step_normal (under extra st) c = Ok (under extra st').
Proof.
  unfold Re.step_normal, Re.item.
  repeat case_decide; try done; try (by intros [= <-]);
    try (by apply quantify_under); try (by apply question_under).
  simpl. destruct (Re.p_rest st) as [|[capt f] rest]; [done|]. by intros [= <-].
Qed.

Lemma step_under st c st' extra :
  Re.step st c = Ok st' → Re.step (under extra st) c = Ok (under extra st').
Proof.
  unfold Re.step. simpl. destruct (Re.p_mode st).
  - apply step_normal_under.
  - unfold Re.step_escaped, Re.item. repeat case_decide; try (by intros [= <-]).
    destruct (Re.is_digit c || Re.is_alpha c); [done|]. by intros [= <-].
  - case_decide; [by intros [= <-]|].
    apply (step_normal_under (Re.open_group true st)).
  - case_decide; [|done]. by intros [= <-].
Qed.

Lemma run_under s st st' extra :
  Re.run st s = Ok st' → Re.run (under extra st) s = Ok (under extra st').
Proof.
  revert st. induction s as [|c t IH]; intros st; simpl.
  - by intros [= <-].
  - destruct (Re.step st c) as [st1|e] eqn:Hs; [|done].
    intros Hrun. rewrite (step_under _ _ _ extra Hs). by apply IH.
Qed.

Lemma run_app s1 s2 st :
  Re.run st (s1 +:+ s2) =
  match Re.run st s1 with
  | Ok st' => Re.run st' s2
  | Raise e => Raise e
  end.
Proof.
  revert st. induction s1 as [|c t IH]; intros st; simpl; [done|].
  destruct (Re.step st c); [apply IH | done].
Qed.

(** A pattern put in parentheses parses to the same expression, in one
    capturing group. *)
Lemma parse_wrapped regex r :
  Re.parse regex = Ok r →
  Re.parse ("(" +:+ regex +:+ ")") = Ok (Re.Seq (Re.Grp true r) Re.Eps).
Proof.
  unfold Re.parse.
  destruct (Re.run (Re.PState Re.Normal Re.new_frame []) regex) as [st|e] eqn:Hrun; [|done].
  destruct st as [mo top rest]. unfold Re.finish. simpl.
  destruct mo; try done. destruct rest; [|done]. intros [= <-].
  assert (Re.run (Re.PState Re.Opened Re.new_frame []) (regex +:+ ")")
          = Ok (Re.PState Re.Normal
                  (Re.push_item (Re.Grp true (Re.body top)) Re.new_frame) [])) as ->; [|done].
  destruct regex as [|c t].
  - simpl in Hrun. by injection Hrun as <-.
  - rewrite run_app.
    assert (Re.run (Re.PState Re.Opened Re.new_frame []) (String c t)
            = Ok (Re.PState Re.Normal top [(true, Re.new_frame)])) as ->.
    { pose proof (run_under _ _ _ [(true, Re.new_frame)] Hrun) as Hu.
      unfold under in Hu. simpl in Hu |- *. unfold Re.step at 1. simpl.
      destruct (decide (c = "?"%char)) as [->|Hc]; [done|].
      exact Hu. }
    reflexivity.
Qed.

Lemma compile_wrapped regex compiled :
  Re.compile regex = Ok compiled →
  Re.groups compiled = 0%nat →
  ∃ wrapped, Re.compile ("(" +:+ regex +:+ ")") = Ok wrapped ∧ Re.groups wrapped = 1%nat.
Proof.
  unfold Re.compile. destruct (Re.parse regex) as [r|e] eqn:Hp; [|done].
  rewrite (parse_wrapped _ _ Hp).
  destruct (100 <=? _)%nat; [done|]. intros [= <-]. unfold Re.groups. simpl. intros H0.
  rewrite H0. simpl. eexists. split; [done|]. simpl. lia.
Qed.

(** [findall] lists the matches [finditer] goes through, and these come
    from left to right without overlap. *)
Lemma findall_finditer_from r n s skip pos :
  Re.findall_from r n s skip = (λ x, x.2) <$> Re.finditer_from r n s skip pos.
Proof.
  revert skip pos. induction s as [|c t IH]; intros [|j] pos; simpl; try done.
  - by destruct (Re.match_here r n EmptyString).
  - destruct (Re.match_here r n (String c t)); simpl; by rewrite <- IH.
Qed.

Lemma finditer_from_ordered r n s skip pos :
  Forall (λ x, (pos + skip ≤ x.1.1 ∧ x.1.1 ≤ x.1.2)%nat) (Re.finditer_from r n s skip pos) ∧
  StronglySorted (λ x y, (x.1.2 ≤ y.1.1 ∧ x.1.1 < y.1.1)%nat)
    (Re.finditer_from r n s skip pos).
Proof.
  revert skip pos. induction s as [|c t IH]; intros [|j] pos.
  - simpl. destruct (Re.match_here r n EmptyString); repeat constructor; simpl; lia.
  - simpl. repeat constructor.
  - cbn [Re.finditer_from]. destruct (Re.match_here r n (String c t)) as [f|].
    + set (k := (Str.len (String c t) - Str.len f.1)%nat).
      destruct (IH (pred k) (S pos)) as [Hall Hs].
      split; constructor; simpl; [lia| |done|].
      * eapply Forall_impl; [exact Hall|]. simpl. lia.
      * eapply Forall_impl; [exact Hall|]. simpl. lia.
    + destruct (IH 0%nat (S pos)) as [Hall Hs]. split; [|done].
      eapply Forall_impl; [exact Hall|]. simpl. lia.
  - cbn [Re.finditer_from]. destruct (IH j (S pos)) as [Hall Hs]. split; [|done].
    eapply Forall_impl; [exact Hall|]. simpl. lia.
Qed.

Lemma findall_left_to_right p line :
  Re.findall p line = (λ x, x.2) <$> Re.finditer p line ∧
  StronglySorted (λ x y, (x.1.2 ≤ y.1.1 ∧ x.1.1 < y.1.1)%nat) (Re.finditer p line).
Proof.
  split; [apply findall_finditer_from | apply finditer_from_ordered].
Qed.

Lemma map_result_middle {A B} (f : A → result B) before x y after :
  f x = f y →
  map_result f (before ++ x :: after) = map_result f (before ++ y :: after).
Proof.
  intros Hxy. induction before as [|z before IH]; simpl; [by rewrite Hxy | by rewrite IH].
Qed.

(** *** Construction, for any behaviour of [re] *)

(** A list comprehension returns when each call does, and raises what the
    first failing call raises. *)
Lemma map_result_Ok {A B} (f : A → result B) l ys :
  map_result f l = Ok ys ↔ Forall2 (λ x y, f x = Ok y) l ys.
Proof.
  revert ys. induction l as [|x l IH]; intros ys; simpl.
  - split; [intros [= <-]; constructor | by intros ->%Forall2_nil_inv_l].
  - destruct (f x) as [y|e] eqn:Hx; simpl.
    + destruct (map_result f l) as [ys'|e] eqn:Hl; simpl.
      * split.
        -- intros [= <-]. constructor; [done|]. by apply IH.
        -- intros (y' & ys'' & Hy & Hys & ->)%Forall2_cons_inv_l.
           apply IH in Hys. congruence.
      * split; [done|]. intros (y' & ys'' & _ & Hys & _)%Forall2_cons_inv_l.
        by apply IH in Hys.
    + split; [done|]. intros (y' & ys'' & Hy & _)%Forall2_cons_inv_l. congruence.
Qed.

Lemma map_result_Raise {A B} (f : A → result B) l e :
  map_result f l = Raise e ↔
  ∃ before x after, l = before ++ x :: after ∧
    Forall (λ y, ∃ p, f y = Ok p) before ∧ f x = Raise e.
Proof.
  induction l as [|x l IH]; simpl.
  { split; [done|]. intros (before & y & after & Hl & _). by destruct before. }
  destruct (f x) as [y|e'] eqn:Hx; simpl.
  - assert (map_result f l = Raise e ↔
            ∃ before x0 after, x :: l = before ++ x0 :: after ∧
              Forall (λ y, ∃ p, f y = Ok p) before ∧ f x0 = Raise e) as Hiff.
    { rewrite IH. split.
      - intros (before & y' & after & -> & Hall & Hy).
        exists (x :: before), y', after. split_and!; [done| |done]. constructor; eauto.
      - intros ([|z before] & y' & after & Heq & Hall & Hy); simpl in Heq.
        + congruence.
        + injection Heq as -> ->. apply Forall_cons in Hall as [_ Hall].
          by exists before, y', after. }
    rewrite <- Hiff. by destruct (map_result f l).
  - split.
    + intros [= ->]. exists [], x, l. split_and!; [done|constructor|done].
    + intros ([|z before] & y' & after & Heq & Hall & Hy); simpl in Heq.
      * congruence.
      * injection Heq as -> ->. apply Forall_cons in Hall as [[p Hp] _]. congruence.
Qed.

Section AnyLibrary.
Context {re : ReLibrary}.

(** What [compile_regex] does with a pattern, by what [re.compile] does
    with it and with its wrapped form. *)
Lemma any_compile_regex_cases regex :
  match AnyRe.compile_regex regex with
  | Ok p => AnyRe.gets_through regex ∧ AnyRe.compiled_from regex p
  | Raise e =>
      (AnyRe.too_many_groups regex ∧ e = AttributeError (too_many_message regex)) ∨
      AnyRe.rejected regex e
  end.
Proof.
  unfold AnyRe.compile_regex, AnyRe.gets_through, AnyRe.rejected, AnyRe.too_many_groups,
    AnyRe.compiled_from, wrapped.
  destruct (re_compile regex) as [c|e] eqn:Hc; cbv [mbind result_bind]; [|by right; left].
  destruct (1 <? re_groups c)%nat eqn:E1.
  { apply Nat.ltb_lt in E1. left. split; [eauto|done]. }
  apply Nat.ltb_ge in E1.
  destruct (re_groups c =? 0)%nat eqn:E0.
  - apply Nat.eqb_eq in E0.
    destruct (re_compile ("(" +:+ regex +:+ ")")) as [w|e] eqn:Hw.
    + split; [exists c; eauto|]. right. exists c. done.
    + right. right. exists c. done.
  - apply Nat.eqb_neq in E0. assert (re_groups c = 1%nat) by lia.
    split; [exists c; eauto|]. by left.
Qed.

Lemma any_gets_through regex :
  AnyRe.gets_through regex ↔ ∃ p, AnyRe.compile_regex regex = Ok p.
Proof.
  pose proof (any_compile_regex_cases regex) as H. split.
  - intros (c & Hc & Hg). destruct (AnyRe.compile_regex regex) as [p|e]; [eauto|].
    exfalso. destruct H as [[(c' & Hc' & Hgt) _]|[He|(c' & Hc' & H0 & Hw)]].
    + assert (c' = c) as -> by congruence. destruct Hg as [?|[? _]]; lia.
    + congruence.
    + assert (c' = c) as -> by congruence.
      destruct Hg as [?|[_ [w Hw']]]; [lia|congruence].
  - intros [p Hp]. rewrite Hp in H. tauto.
Qed.

Lemma any_too_many_groups regex :
  AnyRe.too_many_groups regex →
  AnyRe.compile_regex regex = Raise (AttributeError (too_many_message regex)).
Proof.
  intros (c & Hc & Hgt). unfold AnyRe.compile_regex. rewrite Hc. cbv [mbind result_bind].
  apply Nat.ltb_lt in Hgt. by rewrite Hgt.
Qed.

Lemma any_rejected regex e :
  AnyRe.rejected regex e → AnyRe.compile_regex regex = Raise e.
Proof.
  unfold AnyRe.compile_regex.
  intros [Hc|(c & Hc & H0 & Hw)]; rewrite Hc; cbv [mbind result_bind]; [done|].
  rewrite H0. exact Hw.
Qed.

Lemma any_init_unfold base pats subs v :
  AnyRe.__init__ base pats subs v =
  if negb (some_patterns pats) && negb (some_substitutions subs) then
    Raise (AttributeError "At least patterns or substitutions must be defined")
  else
    match map_result AnyRe.compile_regex (if some_patterns pats then default [] pats else []) with
    | Ok compiled =>
        Ok (AnyRe.mkRedacter base compiled
              (if some_substitutions subs then default ∅ subs else ∅) 0 v)
    | Raise e => Raise e
    end.
Proof.
  unfold AnyRe.__init__. destruct (negb _ && negb _); [done|].
  by destruct (some_patterns pats).
Qed.

Lemma supplied_patterns pats :
  (if some_patterns pats then default [] pats else []) = default [] pats.
Proof. by destruct pats as [[|]|]. Qed.

Lemma any_init_fields base pats subs v r :
  AnyRe.__init__ base pats subs v = Ok r →
  AnyRe.substitution_string r = base ∧ AnyRe._counter r = 0 ∧ AnyRe.validator r = v ∧
  AnyRe.substitutions r = (if some_substitutions subs then default ∅ subs else ∅) ∧
  Forall2 AnyRe.compiled_from (default [] pats) (AnyRe.patterns r).
Proof.
  rewrite any_init_unfold, supplied_patterns. destruct (negb _ && negb _); [done|].
  destruct (map_result _ _) as [ps|e] eqn:Hm; [|done]. intros [= <-]. simpl.
  split_and!; [done..|].
  apply map_result_Ok in Hm. eapply Forall2_impl; [exact Hm|].
  intros regex p Hp. pose proof (any_compile_regex_cases regex) as H.
  rewrite Hp in H. tauto.
Qed.

(** [not patterns and not substitutions], and the place of the first
    pattern that does not get through. *)
Lemma neither_cases pats subs :
  let neither := some_patterns pats = false ∧ some_substitutions subs = false in
  (neither ∧ negb (some_patterns pats) && negb (some_substitutions subs) = true) ∨
  (¬ neither ∧ negb (some_patterns pats) && negb (some_substitutions subs) = false).
Proof.
  simpl. destruct (some_patterns pats), (some_substitutions subs); simpl;
    [right|right|right|left]; split; try done; by intros [? ?].
Qed.

Lemma any_init_Raise base pats subs v e :
  AnyRe.__init__ base pats subs v = Raise e ↔
  (some_patterns pats = false ∧ some_substitutions subs = false ∧
   e = AttributeError "At least patterns or substitutions must be defined") ∨
  (¬ (some_patterns pats = false ∧ some_substitutions subs = false) ∧
   ∃ before regex after, default [] pats = before ++ regex :: after ∧
     Forall AnyRe.gets_through before ∧
     ((AnyRe.too_many_groups regex ∧ e = AttributeError (too_many_message regex)) ∨
      AnyRe.rejected regex e)).
Proof.
  rewrite any_init_unfold, supplied_patterns.
  destruct (neither_cases pats subs) as [[Hn ->]|[Hno ->]].
  { split; [intros [= <-]; left; tauto|].
    intros [(_ & _ & ->)|[Hno _]]; [done|tauto]. }
  destruct (map_result AnyRe.compile_regex (default [] pats)) as [ps|e'] eqn:Hm.
  - split; [done|]. intros [(? & ? & _)|(_ & before & regex & after & Hs & Hall & Hbad)];
      [tauto|].
    exfalso. apply map_result_Ok in Hm. rewrite Hs in Hm.
    apply Forall2_app_inv_l in Hm as (ps1 & ps2 & _ & Hm & _).
    apply Forall2_cons_inv_l in Hm as (p & ps2' & Hp & _ & _).
    destruct Hbad as [[Ht _]|Hr].
    + apply any_too_many_groups in Ht. congruence.
    + apply any_rejected in Hr. congruence.
  - split.
    + intros [= ->]. right. split; [done|].
      apply map_result_Raise in Hm as (before & regex & after & Hs & Hall & Hx).
      exists before, regex, after. split_and!; [done| |].
      * eapply Forall_impl; [exact Hall|]. intros y. by rewrite any_gets_through.
      * pose proof (any_compile_regex_cases regex) as H. by rewrite Hx in H.
    + intros [(? & ? & _)|(_ & before & regex & after & Hs & Hall & Hbad)]; [tauto|].
      assert (map_result AnyRe.compile_regex (default [] pats) = Raise e) as Hm';
        [|congruence].
      apply map_result_Raise. exists before, regex, after. split_and!; [done| |].
      * eapply Forall_impl; [exact Hall|]. intros y. by rewrite any_gets_through.
      * destruct Hbad as [[Ht ->]|Hr]; [by apply any_too_many_groups|by apply any_rejected].
Qed.

Lemma any_init_Ok base pats subs v :
  (∃ r, AnyRe.__init__ base pats subs v = Ok r) ↔
  ¬ (some_patterns pats = false ∧ some_substitutions subs = false) ∧
  Forall AnyRe.gets_through (default [] pats).
Proof.
  rewrite any_init_unfold, supplied_patterns.
  destruct (neither_cases pats subs) as [[Hn ->]|[Hno ->]].
  { split; [by intros [? ?]|tauto]. }
  destruct (map_result AnyRe.compile_regex (default [] pats)) as [ps|e'] eqn:Hm.
  - split; [|eauto]. intros _. split; [done|].
    apply map_result_Ok in Hm. apply Forall_forall. intros regex Hin.
    apply any_gets_through.
    apply list_elem_of_lookup in Hin as [i Hi].
    destruct (Forall2_lookup_l _ _ _ _ _ Hm Hi) as (p & _ & Hp). eauto.
  - split; [by intros [? ?]|]. intros [_ Hall]. exfalso.
    apply map_result_Raise in Hm as (before & regex & after & Hs & _ & Hx).
    rewrite Forall_forall in Hall.
    destruct (proj1 (any_gets_through regex)) as [p Hp]; [|congruence].
    apply Hall. rewrite Hs. apply elem_of_app. right. by left.
Qed.

(** C6, as the program has it. Construction compiles the patterns given in
    their order and stops at the first that does not get through.  It
    raises the configuration error [AttributeError] when neither a pattern
    nor a substitution is given, and when the first pattern that does not
    get through is one that compiles with more than one capturing group;
    it raises what [re.compile] raises when the first pattern that does not
    get through is one that [re.compile] refuses, as it is given or, for a
    pattern without a group, in its wrapped form; it gives an instance
    exactly when a pattern or a substitution is given and every pattern
    compiles with one group, or with none and its wrapped form compiles
    too.  Unless [re.compile] raises [AttributeError] itself, the
    configuration error is raised in the first two cases only. *)
Theorem construction_outcome base pats subs v :
  let neither := some_patterns pats = false ∧ some_substitutions subs = false in
  let supplied := default [] pats in
  let first_failure regex :=
    ∃ before after, supplied = before ++ regex :: after ∧
      Forall AnyRe.gets_through before in
  (neither →
   AnyRe.__init__ base pats subs v
   = Raise (AttributeError "At least patterns or substitutions must be defined")) ∧
  ((∃ r, AnyRe.__init__ base pats subs v = Ok r) ↔
   ¬ neither ∧ Forall AnyRe.gets_through supplied) ∧
  (∀ e, AnyRe.__init__ base pats subs v = Raise e ↔
     (neither ∧ e = AttributeError "At least patterns or substitutions must be defined") ∨
     (¬ neither ∧ ∃ regex, first_failure regex ∧
        ((AnyRe.too_many_groups regex ∧ e = AttributeError (too_many_message regex)) ∨
         AnyRe.rejected regex e))) ∧
  ((∀ regex msg, re_compile regex ≠ Raise (AttributeError msg)) →
   ((∃ msg, AnyRe.__init__ base pats subs v = Raise (AttributeError msg)) ↔
    neither ∨ ∃ regex, first_failure regex ∧ AnyRe.too_many_groups regex)).
Proof.
  intros neither supplied first_failure.
  assert (∀ e, AnyRe.__init__ base pats subs v = Raise e ↔
     (neither ∧ e = AttributeError "At least patterns or substitutions must be defined") ∨
     (¬ neither ∧ ∃ regex, first_failure regex ∧
        ((AnyRe.too_many_groups regex ∧ e = AttributeError (too_many_message regex)) ∨
         AnyRe.rejected regex e))) as Hraise.
  { intros e. rewrite any_init_Raise. unfold neither, first_failure, supplied. split.
    - intros [(? & ? & ?)|(? & before & regex & after & ? & ? & ?)]; [by left|right].
      split; [done|]. exists regex. split; [by exists before, after|done].
    - intros [[[? ?] ?]|(? & regex & (before & after & ? & ?) & ?)]; [by left|right].
      split; [done|]. by exists before, regex, after. }
  split_and!; [|apply any_init_Ok|exact Hraise|].
  - intros Hn. apply Hraise. by left.
  - intros Hlib. split.
    + intros [msg Hm].
      apply Hraise in Hm as [[Hn _]|(_ & regex & Hfirst & [[Ht _]|Hr])]; [by left|right; eauto|].
      exfalso. destruct Hr as [Hr|(c & _ & _ & Hr)]; by apply Hlib in Hr.
    + intros [Hn|(regex & Hfirst & Ht)].
      * eexists. apply Hraise. by left.
      * destruct (neither_cases pats subs) as [[Hn _]|[Hno _]].
        -- eexists. apply Hraise. by left.
        -- eexists. apply Hraise. right. split; [done|].
           exists regex. split; [done|]. by left.
Qed.

(** C7. Zero-group wrapping equivalence, for every pattern of every syntax:
    a pattern that compiles without a capturing group is compiled by
    [compile_regex] to what [re.compile] gives for the pattern put in
    parentheses; and when the pattern in parentheses is a pattern with one
    capturing group wherever it compiles, this is the very result
    [compile_regex] has for the pattern in parentheses, be it a pattern
    object or an exception.  So the two constructions, with the pattern and
    with the pattern in parentheses at the same place of the list, end in
    the same way, and the two instances, when there are instances, are
    equal: whatever is done with the one gives what it gives with the
    other, results and next states. *)
Theorem wrapping_is_equivalent regex compiled :
  re_compile regex = Ok compiled →
  re_groups compiled = 0%nat →
  AnyRe.compile_regex regex = re_compile (wrapped regex) ∧
  ((∀ w, re_compile (wrapped regex) = Ok w → re_groups w = 1%nat) →
   AnyRe.compile_regex regex = AnyRe.compile_regex (wrapped regex) ∧
   ∀ base before after subs v,
     AnyRe.__init__ base (Some (before ++ regex :: after)) subs v
     = AnyRe.__init__ base (Some (before ++ wrapped regex :: after)) subs v ∧
     ∀ r1 r2,
       AnyRe.__init__ base (Some (before ++ regex :: after)) subs v = Ok r1 →
       AnyRe.__init__ base (Some (before ++ wrapped regex :: after)) subs v = Ok r2 →
       r1 = r2).
Proof.
  intros Hc H0.
  assert (AnyRe.compile_regex regex = re_compile (wrapped regex)) as Hw.
  { unfold AnyRe.compile_regex. rewrite Hc. cbv [mbind result_bind]. by rewrite H0. }
  split; [done|]. intros Hone.
  assert (AnyRe.compile_regex regex = AnyRe.compile_regex (wrapped regex)) as Heq.
  { rewrite Hw. unfold AnyRe.compile_regex at 1.
    destruct (re_compile (wrapped regex)) as [w|e] eqn:Hwr; cbv [mbind result_bind]; [|done].
    by rewrite (Hone w eq_refl). }
  split; [done|]. intros base before after subs v.
  assert (AnyRe.__init__ base (Some (before ++ regex :: after)) subs v
          = AnyRe.__init__ base (Some (before ++ wrapped regex :: after)) subs v) as Hinit.
  { rewrite !any_init_unfold.
    assert (∀ x, some_patterns (Some (before ++ x :: after)) = true) as Hsome
      by (intros x; by destruct before).
    rewrite !Hsome. cbv [default from_option id].
    by rewrite (map_result_middle AnyRe.compile_regex before regex (wrapped regex) after Heq). }
  split; [done|]. intros r1 r2 H1 H2. congruence.
Qed.

End AnyLibrary.

(** The fragment [Re] is one such library: the constructions above are
    the ones of the class [Redacter], and in the fragment a pattern put in
    parentheses has one group more. *)
Lemma compile_regex_model regex :
  compile_regex regex = AnyRe.compile_regex (re:=model_re) regex.
Proof. reflexivity. Qed.

Lemma init_model base pats subs v :
  __init__ base pats subs v
  = match AnyRe.__init__ (re:=model_re) base pats subs v with
    | Ok r => Ok (of_model r)
    | Raise e => Raise e
    end.
Proof.
  unfold __init__, AnyRe.__init__. destruct (negb _ && negb _); [done|].
  destruct (some_patterns pats); [|done].
  change (map_result compile_regex) with (map_result (AnyRe.compile_regex (re:=model_re))).
  by destruct (map_result _ _).
Qed.

Lemma create_model base regex_file substitutions_file v :
  create base regex_file substitutions_file v
  = match AnyRe.create (re:=model_re) base regex_file substitutions_file v with
    | Ok r => Ok (of_model <$> r)
    | Raise e => Raise e
    end.
Proof.
  unfold create, AnyRe.create. rewrite init_model.
  destruct (AnyRe.__init__ _ _ _ _) as [r|[]]; done.
Qed.

Lemma model_wrapped_one_group regex compiled w :
  re_compile (ReLibrary:=model_re) regex = Ok compiled →
  re_groups compiled = 0%nat →
  re_compile (ReLibrary:=model_re) (wrapped regex) = Ok w → re_groups w = 1%nat.
Proof.
  simpl. intros Hc H0 Hw. destruct (compile_wrapped _ _ Hc H0) as (w' & Hw' & Hg).
  unfold wrapped in Hw. congruence.
Qed.

(** ** One call of [redact] *)

Lemma apply_all_absent l line :
  (∀ kv, kv ∈ l → ¬ Str.occurs kv.1 line) → apply_all l line = line.
Proof.
  unfold apply_all. induction l as [|[k v] l IH]; intros Hl; simpl; [done|].
  rewrite replace_absent by (apply (Hl (k, v)); by left).
  apply IH. intros kv Hkv. apply Hl. by right.
Qed.

Lemma note_validator self secret : validator (note self secret) = validator self.
Proof. unfold note. by case_decide. Qed.

Section Calls.
Context {order : DictOrder}.
Variable call : world → list string → proc.

(** Without a validator nothing is run, and the first loop is [note] over
    the candidates. *)
Lemma consider_no_validator secret self w :
  no_validator self → consider call secret (self, w) = (Ok (), (note self secret, w)).
Proof.
  intros Hv. rewrite consider_cases. unfold note.
  case_decide; [done|]. by destruct Hv as [-> | ->].
Qed.

Lemma for_each_no_validator l self w :
  no_validator self →
  for_each l (consider call) (self, w) = (Ok (), (foldl note self l, w)).
Proof.
  revert self. induction l as [|x l IH]; intros self Hv; simpl; [done|].
  unfold mbind, M_bind. rewrite consider_no_validator by done.
  apply IH. unfold no_validator. by rewrite note_validator.
Qed.

Lemma redact_no_validator line self w :
  no_validator self →
  let self' := foldl note self (candidates self line) in
  redact call line (self, w) = (Ok (apply_all (replacements self') line), (self', w)).
Proof.
  intros Hv. simpl. rewrite redact_unfold, discover_flat.
  by rewrite for_each_no_validator.
Qed.

(** A loop whose body always returns normally does so itself. *)
Lemma for_each_ok {A} (I : state → Prop) (l : list A) (body : A → M unit) st :
  (∀ x st, x ∈ l → I st → ∃ st', body x st = (Ok (), st') ∧ I st') →
  I st → ∃ st', for_each l body st = (Ok (), st') ∧ I st'.
Proof.
  revert st. induction l as [|x l IH]; intros st Hbody HI; simpl; [eauto|].
  destruct (Hbody x st ltac:(by left) HI) as (st1 & Hx & HI1).
  unfold mbind, M_bind. rewrite Hx. apply IH; [|done].
  intros. apply Hbody; [by right|done].
Qed.

End Calls.

Lemma note_same r1 r2 secret :
  same_settings r1 r2 → same_settings (note r1 secret) (note r2 secret).
Proof.
  intros (Hp & Hs & Hc & Hb). unfold note. rewrite Hs.
  case_decide; [done|]. unfold same_settings. simpl. by rewrite Hp, Hs, Hc, Hb.
Qed.

Lemma notes_same l r1 r2 :
  same_settings r1 r2 → same_settings (foldl note r1 l) (foldl note r2 l).
Proof.
  revert r1 r2. induction l as [|x l IH]; intros r1 r2 H; simpl; [done|].
  by apply IH, note_same.
Qed.

Section Claims.
Context {order : DictOrder}.
Variable call : world → list string → proc.

(** C2. Replacement phase: when the first loop is over, [redact] returns
    the line with every entry of the table replaced everywhere, literally,
    one entry after the other in an order in which the length of the secret
    never increases, so that an entry with a longer secret is always applied
    before one with a shorter secret; and with the table [{secretA: x}],
    [redact("secretAsecretA")] is [xx]. *)
Theorem replacement_longest_first line st st' :
  discover call line st = (Ok (), st') →
  (∃ l,
     l ≡ₚ map_to_list (substitutions st'.1) ∧
     StronglySorted (λ a b, (Str.len b.1 ≤ Str.len a.1)%nat) l ∧
     (∀ i j a b, l !! i = Some a → l !! j = Some b →
        (Str.len b.1 < Str.len a.1)%nat → (i < j)%nat) ∧
     redact call line st = (Ok (apply_all l line), st')) ∧
  (∀ base v r w,
     __init__ base None (Some {["secretA" := "x"]}) v = Ok r →
     redact call "secretAsecretA" (r, w) = (Ok "xx", (r, w))).
Proof.
  intros Hd. split.
  - exists (replacements st'.1). split_and!.
    + unfold replacements. by rewrite sorted_perm, iteritems_perm.
    + apply sorted_descending.
    + intros i j a b. apply (descending_longer_first (λ i : string * string, Str.len i.1)).
      apply sorted_descending.
    + by rewrite redact_unfold, Hd.
  - intros base v r w Hinit.
    assert (r = mkRedacter base [] {["secretA" := "x"]} 0 v) as ->.
    { revert Hinit. unfold __init__. simpl.
      rewrite bool_decide_true by (by apply insert_non_empty). simpl. by intros [= <-]. }
    rewrite redact_unfold, discover_flat. simpl.
    assert (iteritems {["secretA" := "x"]} = [("secretA", "x")]) as Hitems.
    { apply Permutation_singleton_r. by rewrite iteritems_perm, map_to_list_singleton. }
    unfold replacements. simpl. by rewrite Hitems.
Qed.

(** C4, as the program has it. Discovery order within one call: the
    candidates are taken pattern after pattern, in the order the patterns
    are configured, and for each pattern in the order of its matches, which
    are listed from left to right, none overlapping the one before.  The
    secrets that get an entry in the call are a subsequence of this
    sequence, each once and none of them in the table before; without a
    validator they are the candidates not yet in the table, each where it
    first stands in the sequence; with a validator, every new candidate it
    accepts is among them when the call returns.  They are given
    consecutive values of the one counter of the instance, in that order:
    the [i]-th gets the counter value at the start of the call plus [i],
    whichever pattern found it; no other entry is added or changed. *)
Theorem discovery_in_loop_order self w line o self' w' :
  redact call line (self, w) = (o, (self', w')) →
  let found := concat ((λ pattern, Re.findall pattern line) <$> patterns self) in
  (∀ p, Re.findall p line = (λ x, x.2) <$> Re.finditer p line ∧
        StronglySorted (λ x y, (x.1.2 ≤ y.1.1 ∧ x.1.1 < y.1.1)%nat) (Re.finditer p line)) ∧
  ∃ accepted,
    sublist accepted found ∧ NoDup accepted ∧
    (∀ s, s ∈ accepted → substitutions self !! s = None) ∧
    (no_validator self → accepted = new_ones (dom (substitutions self)) found) ∧
    (∀ s, s ∈ found → substitutions self !! s = None → accepts call self s →
       (∃ out, o = Ok out) → s ∈ accepted) ∧
    _counter self' = _counter self + Z.of_nat (length accepted) ∧
    (∀ (i : nat) secret,
       accepted !! i = Some secret →
       substitutions self' !! secret
       = Some (substitution_string self +:+ Str.of_int (_counter self + Z.of_nat i))) ∧
    (∀ s, s ∉ accepted → substitutions self' !! s = substitutions self !! s).
Proof.
  intros Hred found. split; [intros p; apply findall_left_to_right|].
  destruct (redact_accepted call _ _ _ _ _ _ Hred)
    as (acc & Hsl & Hnd & Hfresh & -> & Hnov & Hacc & _).
  destruct (assigned_all acc self Hnd Hfresh) as (_ & Hcount & Hidx & Hout).
  exists acc. split_and!; [done|done|done| | |done|done|done].
  - intros Hv. by destruct (Hnov Hv) as (? & _).
  - intros s Hs Hnone Ha Ho. by apply Hacc.
Qed.

(** C5, as the program has it. Validator rejection: exit status 0 accepts a
    candidate and any other status rejects it; a rejected candidate gets no
    entry and leaves the counter as it is; when every new candidate of the
    line is rejected, the table and the counter are unchanged and the line
    returned is the input with the entries of the table replaced, the input
    itself when no secret of the table occurs in it. *)
Theorem rejection_adds_nothing self w line path :
  validator self = Some path → path ≠ EmptyString →
  (∀ secret w', secret ∈ candidates self line → substitutions self !! secret = None →
     ∃ status, call w' [path; secret] = Exited status ∧ status ≠ 0) →
  (∀ secret w' status,
     substitutions self !! secret = None →
     call w' [path; secret] = Exited status →
     consider call secret (self, w')
     = (Ok (), (if bool_decide (status = 0) then assigned self secret else self,
                w' ++ [[path; secret]]))) ∧
  ∃ w',
    redact call line (self, w) = (Ok (apply_all (replacements self) line), (self, w')) ∧
    ((∀ secret, is_Some (substitutions self !! secret) → ¬ Str.occurs secret line) →
     redact call line (self, w) = (Ok line, (self, w'))).
Proof.
  intros Hv Hpath Hrej. split.
  - intros secret w' status Hnone Hcall. rewrite consider_cases.
    rewrite decide_False by (rewrite Hnone; by intros [? ?]).
    rewrite Hv. destruct path; [done|]. by rewrite Hcall.
  - destruct (for_each_ok (λ st, st.1 = self) (candidates self line) (consider call) (self, w))
      as ([self' w'] & Hrun & Heq); [|done|].
    + intros secret [self1 w1] Hin Hself. simpl in Hself. subst self1.
      rewrite consider_cases. case_decide as Hknown; [eauto|].
      rewrite Hv. destruct path as [|a path]; [done|].
      destruct (Hrej secret w1 Hin) as (status & -> & Hstatus).
      { by apply eq_None_not_Some. }
      rewrite bool_decide_false by done. eauto.
    + simpl in Heq. subst self'. exists w'.
      assert (redact call line (self, w)
              = (Ok (apply_all (replacements self) line), (self, w'))) as Hred.
      { by rewrite redact_unfold, discover_flat, Hrun. }
      split; [done|]. intros Habsent. rewrite Hred. do 2 f_equal.
      apply apply_all_absent. intros [k v] Hkv%replacements_entries. simpl in *.
      apply Habsent. eauto.
Qed.

(** C9. No-op on non-matching input: when no pattern matches in the line,
    [redact] leaves the table and the counter (the whole instance, and the
    world) as they are, and when moreover no secret of the table occurs in
    the line it returns the line itself. *)
Theorem no_match_no_change self w line :
  (∀ pattern, pattern ∈ patterns self → Re.findall pattern line = []) →
  (∃ out, redact call line (self, w) = (Ok out, (self, w))) ∧
  ((∀ secret, is_Some (substitutions self !! secret) → ¬ Str.occurs secret line) →
   redact call line (self, w) = (Ok line, (self, w))).
Proof.
  intros Hno.
  assert (candidates self line = []) as Hc.
  { unfold candidates. induction (patterns self) as [|p ps IH]; simpl; [done|].
    rewrite Hno by (by left). apply IH. intros. apply Hno. by right. }
  assert (redact call line (self, w)
          = (Ok (apply_all (replacements self) line), (self, w))) as Hred.
  { by rewrite redact_unfold, discover_flat, Hc. }
  split; [eauto|]. intros Habsent. rewrite Hred. do 2 f_equal.
  apply apply_all_absent. intros [k v] Hkv%replacements_entries. simpl in *.
  apply Habsent. eauto.
Qed.

End Claims.

(** C10, as the program has it. Without a validator [redact] runs nothing
    and always returns: two instances without a validator and with equal
    patterns, tables, counters and base strings, given the same line, end
    with equal patterns, tables, counters and base strings, whatever the
    processes of the environment would do and in whatever order each of
    them iterates over its table; and they return the same line when the
    two tables are iterated in the same order, or when no two secrets of
    the table have the same length. *)
Theorem redact_deterministic (order1 order2 : DictOrder)
    (call1 call2 : world → list string → proc) r1 r2 w1 w2 line :
  same_settings r1 r2 → no_validator r1 → no_validator r2 →
  ∃ out1 out2 r1' r2',
    redact (order:=order1) call1 line (r1, w1) = (Ok out1, (r1', w1)) ∧
    redact (order:=order2) call2 line (r2, w2) = (Ok out2, (r2', w2)) ∧
    same_settings r1' r2' ∧
    (@iteritems order1 (substitutions r1') = @iteritems order2 (substitutions r2') →
     out1 = out2) ∧
    ((∀ k1 k2, is_Some (substitutions r1' !! k1) → is_Some (substitutions r1' !! k2) →
        Str.len k1 = Str.len k2 → k1 = k2) →
     out1 = out2).
Proof.
  intros Hsame Hv1 Hv2.
  pose proof (notes_same (candidates r1 line) _ _ Hsame) as Hsame'.
  assert (candidates r2 line = candidates r1 line) as Hcand.
  { unfold candidates. by destruct Hsame as (-> & _). }
  set (r1' := foldl note r1 (candidates r1 line)) in *.
  set (r2' := foldl note r2 (candidates r1 line)) in *.
  exists (apply_all (@replacements order1 r1') line),
    (apply_all (@replacements order2 r2') line), r1', r2'.
  assert (substitutions r1' = substitutions r2') as Hsubs by (by destruct Hsame' as (_ & ? & _)).
  split_and!; [by apply redact_no_validator| |done| |].
  - rewrite (redact_no_validator (order:=order2) call2 line r2 w2 Hv2). simpl.
    by rewrite Hcand.
  - intros Hit. unfold replacements. by rewrite Hit.
  - intros Hlen. f_equal. unfold replacements.
    apply (sorted_unique (λ a b : string * string, (Str.len b.1 ≤ Str.len a.1)%nat)).
    + by rewrite !sorted_perm, !iteritems_perm, Hsubs.
    + apply sorted_descending.
    + apply sorted_descending.
    + intros [k1 p1] [k2 p2] H1 H2 Hle1 Hle2. simpl in *.
      rewrite sorted_perm, iteritems_perm in H1, H2.
      apply elem_of_map_to_list in H1, H2.
      assert (k1 = k2) as -> by (apply Hlen; [eauto..|lia]).
      congruence.
Qed.

(** ** The table [create] builds *)

Lemma dict_of_snoc l k v : dict_of (l ++ [(k, v)]) = <[k := v]> (dict_of l).
Proof. unfold dict_of. by rewrite foldl_snoc. Qed.

Lemma dict_of_lookup_last l1 k v l2 :
  k ∉ l2.*1 → dict_of (l1 ++ (k, v) :: l2) !! k = Some v.
Proof.
  revert l1. induction l2 as [|[k' v'] l2 IH] using rev_ind; intros l1 Hk.
  - rewrite dict_of_snoc. apply lookup_insert_eq.
  - rewrite fmap_app in Hk. apply not_elem_of_app in Hk as [Hk Hk'].
    rewrite app_comm_cons, (assoc_L (++)), dict_of_snoc.
    rewrite lookup_insert_ne by (simpl in Hk'; set_solver). by apply IH.
Qed.

Lemma dict_of_lookup_None l k : k ∉ l.*1 → dict_of l !! k = None.
Proof.
  induction l as [|[k' v'] l IH] using rev_ind; intros Hk; [done|].
  rewrite fmap_app in Hk. apply not_elem_of_app in Hk as [Hk Hk'].
  rewrite dict_of_snoc, lookup_insert_ne by (simpl in Hk'; set_solver). by apply IH.
Qed.

Lemma dict_of_lookup_Some l k v : dict_of l !! k = Some v → (k, v) ∈ l.
Proof.
  induction l as [|[k' v'] l IH] using rev_ind; [done|].
  rewrite dict_of_snoc. intros [[-> ->]|[_ Hl]]%lookup_insert_Some.
  - apply elem_of_app. right. by left.
  - apply elem_of_app. left. by apply IH.
Qed.

Lemma dict_of_is_Some l k : k ∈ l.*1 → is_Some (dict_of l !! k).
Proof.
  intros Hk. destruct (dict_of l !! k) eqn:E; [done|]. exfalso.
  revert Hk E. induction l as [|[k' v'] l IH] using rev_ind; [by intros ?%elem_of_nil|].
  rewrite fmap_app, dict_of_snoc. intros Hk [Hne E]%lookup_insert_None.
  apply elem_of_app in Hk as [Hk|Hk]; [by apply IH|].
  simpl in Hk. apply list_elem_of_singleton in Hk. done.
Qed.

(** The table of the lines of a substitutions file, seen from one line. *)
Lemma table_of_lines lines before line after k p :
  lines = before ++ line :: after →
  parse_substitution line = (k, p) →
  let d := dict_of (parse_substitution <$> lines) in
  d ≠ ∅ ∧ is_Some (d !! k) ∧
  (k ∉ (parse_substitution <$> after).*1 → d !! k = Some p) ∧
  (∀ secret placeholder, d !! secret = Some placeholder →
     ∃ l, l ∈ lines ∧ parse_substitution l = (secret, placeholder)).
Proof.
  intros -> Hline d.
  assert (is_Some (d !! k)) as Hk.
  { apply dict_of_is_Some. rewrite !fmap_app, !fmap_cons, Hline.
    apply elem_of_app. right. by left. }
  split_and!; [|done| |].
  - intros Hd. rewrite Hd, lookup_empty in Hk. by destruct Hk.
  - intros Hlast. unfold d. rewrite fmap_app, fmap_cons, Hline.
    by apply dict_of_lookup_last.
  - intros secret placeholder Hs%dict_of_lookup_Some.
    apply list_elem_of_fmap in Hs as (l & Hl & Hin). eauto.
Qed.

Section Create.
Context {re : ReLibrary}.

(** What [create] returns, by what the two files give. *)
Lemma any_create_cases base regex_file substitutions_file v :
  let patterns := read_uncommented_lines regex_file in
  let d := dict_of (parse_substitution <$> read_uncommented_lines substitutions_file) in
  (∀ r, AnyRe.create base regex_file substitutions_file v = Ok (Some r) →
     AnyRe.substitution_string r = base ∧ AnyRe._counter r = 0 ∧ AnyRe.validator r = v ∧
     AnyRe.substitutions r = d ∧ Forall2 AnyRe.compiled_from patterns (AnyRe.patterns r) ∧
     (patterns ≠ [] ∨ d ≠ ∅)) ∧
  ((patterns ≠ [] ∨ d ≠ ∅) → Forall AnyRe.gets_through patterns →
     ∃ r, AnyRe.create base regex_file substitutions_file v = Ok (Some r)).
Proof.
  intros patterns d. unfold AnyRe.create. fold patterns d.
  pose proof (any_init_Ok base (Some patterns) (Some d) v) as Hok.
  assert ((some_patterns (Some patterns) = false ∧ some_substitutions (Some d) = false)
          ↔ ¬ (patterns ≠ [] ∨ d ≠ ∅)) as Hn.
  { simpl. destruct patterns as [|x l].
    - case_bool_decide as Hd; split.
      + by intros [_ ?].
      + intros Hno. exfalso. apply Hno. by right.
      + intros _ [?|?]; done.
      + done.
    - split; [by intros [? _]|]. intros Hno. exfalso. apply Hno. by left. }
  split.
  - intros r. destruct (AnyRe.__init__ _ _ _ _) as [r'|e] eqn:Hinit; [|by destruct e].
    intros [= <-].
    destruct (any_init_fields _ _ _ _ _ Hinit) as (Hb & Hc & Hv & Hs & Hp).
    assert (patterns ≠ [] ∨ d ≠ ∅) as Hsome.
    { destruct (proj1 Hok (ex_intro _ r' eq_refl)) as [Hno _].
      destruct patterns; [|by left]. right. intros Hd. apply Hno. apply Hn.
      intros [?|?]; done. }
    split_and!; [done..| |done|done].
    rewrite Hs. simpl. case_bool_decide as Hd; [done|].
    destruct (decide (d = ∅)) as [->|?]; done.
  - intros Hsome Hall. destruct (proj2 Hok) as [r ->]; [|eauto].
    split; [|done]. rewrite Hn. tauto.
Qed.

(** C8. Substitution-file parsing: a line is split at its last [=]; the
    secret is what stands before it, with any [=] it has, the placeholder
    what stands after it, both stripped of surrounding white space.  For
    each stripped line of the file that is neither blank nor a comment,
    [create] returns an instance whenever the patterns of the patterns
    file get through; and in the table of an instance it returns, the
    secret of the line has an entry, which is the placeholder of the line
    unless a later line gives the same secret, and every entry is the
    secret and the placeholder of a line of the file. *)
Theorem substitution_split_at_last_equals pre post :
  ¬ has_char "=" post →
  parse_substitution (pre +:+ "=" +:+ post) = (Str.strip pre, Str.strip post) ∧
  ∀ base regex_file substitutions_file v before after,
    read_uncommented_lines substitutions_file = before ++ (pre +:+ "=" +:+ post) :: after →
    (Forall AnyRe.gets_through (read_uncommented_lines regex_file) →
     ∃ r, AnyRe.create base regex_file substitutions_file v = Ok (Some r)) ∧
    (∀ r, AnyRe.create base regex_file substitutions_file v = Ok (Some r) →
       is_Some (AnyRe.substitutions r !! Str.strip pre) ∧
       (Str.strip pre ∉ (parse_substitution <$> after).*1 →
        AnyRe.substitutions r !! Str.strip pre = Some (Str.strip post)) ∧
       (∀ secret placeholder,
          AnyRe.substitutions r !! secret = Some placeholder →
          ∃ line, line ∈ read_uncommented_lines substitutions_file ∧
            parse_substitution line = (secret, placeholder))).
Proof.
  intros Hno.
  assert (parse_substitution (pre +:+ "=" +:+ post) = (Str.strip pre, Str.strip post))
    as Hparse.
  { unfold parse_substitution.
    change (pre +:+ "=" +:+ post) with (pre +:+ String "=" post).
    rewrite split_app by done.
    rewrite List.removelast_last, List.last_last.
    change "="%string with (String "=" EmptyString). by rewrite join_split. }
  split; [done|]. intros base regex_file substitutions_file v before after Hlines.
  destruct (table_of_lines _ _ _ _ _ _ Hlines Hparse) as (Hne & Hsome & Hlast & Hfrom).
  destruct (any_create_cases base regex_file substitutions_file v) as [Hfields Hex].
  split.
  - intros Hall. apply Hex; [by right|done].
  - intros r Hr. destruct (Hfields r Hr) as (_ & _ & _ & -> & _). done.
Qed.

End Create.

(** ** The claims at concrete inputs *)

Lemma table_is_stable_witness :
  substitutions seeded_instance !! "secretA" = Some "x" ∧
  reaches (H:=key_order) no_process seeded_instance seeded_instance ∧
  ∀ w, consider no_process "secretA" (seeded_instance, w) = (Ok (), (seeded_instance, w)).
Proof.
  split; [reflexivity|]. split; [constructor|].
  exact (proj1 (proj2 (table_is_stable (order:=key_order) no_process
                         seeded_instance seeded_instance "secretA" "x"
                         eq_refl (reaches_here _ _)))).
Defined.

Lemma replacement_longest_first_witness :
  discover no_process "secretAsecretA" (seeded_instance, [])
  = (Ok (), (seeded_instance, [])) ∧
  redact (order:=key_order) no_process "secretAsecretA" (seeded_instance, [])
  = (Ok "xx", (seeded_instance, [])).
Proof.
  split; [reflexivity|].
  exact (proj2 (replacement_longest_first (order:=key_order) no_process
                  "secretAsecretA" (seeded_instance, []) (seeded_instance, []) eq_refl)
               "redact" None seeded_instance [] eq_refl).
Defined.


Lemma discovery_in_loop_order_witness :
  redact (order:=key_order) no_process "secret: x secretA" (two_patterns, [])
  = (Ok "secret: redact1 redact0", (two_patterns_after, [])) ∧
  ∃ accepted,
    sublist accepted (concat ((λ pattern, Re.findall pattern "secret: x secretA")
                                <$> patterns two_patterns)) ∧
    NoDup accepted ∧
    (∀ s, s ∈ accepted → substitutions two_patterns !! s = None) ∧
    (no_validator two_patterns →
       accepted = new_ones (dom (substitutions two_patterns))
                    (concat ((λ pattern, Re.findall pattern "secret: x secretA")
                               <$> patterns two_patterns))) ∧
    (∀ s, s ∈ concat ((λ pattern, Re.findall pattern "secret: x secretA")
                        <$> patterns two_patterns) →
       substitutions two_patterns !! s = None → accepts no_process two_patterns s →
       (∃ out, Ok "secret: redact1 redact0" = Ok out) → s ∈ accepted) ∧
    _counter two_patterns_after = _counter two_patterns + Z.of_nat (length accepted) ∧
    (∀ (i : nat) secret,
       accepted !! i = Some secret →
       substitutions two_patterns_after !! secret
       = Some (substitution_string two_patterns +:+
               Str.of_int (_counter two_patterns + Z.of_nat i))) ∧
    (∀ s, s ∉ accepted →
       substitutions two_patterns_after !! s = substitutions two_patterns !! s).
Proof.
  assert (redact (order:=key_order) no_process "secret: x secretA" (two_patterns, [])
          = (Ok "secret: redact1 redact0", (two_patterns_after, []))) as Hstep
    by (vm_compute; reflexivity).
  split; [exact Hstep|].
  exact (proj2 (discovery_in_loop_order (order:=key_order) no_process two_patterns []
                  "secret: x secretA" _ two_patterns_after [] Hstep)).
Defined.

(** C4 as stated fails: in [secret: x secretA] the secret [x] stands before
    the secret [secretA], yet [secretA], found by the first pattern, is
    given the counter value 0 and [x] the value 1. *)
Lemma discovery_not_textual :
  "secret: x secretA" = "secret: " +:+ "x" +:+ " " +:+ "secretA" ∧
  __init__ "redact" (Some ["secretA"; "secret: (\S+)"]) None None = Ok two_patterns ∧
  ∃ self',
    redact (order:=key_order) no_process "secret: x secretA" (two_patterns, [])
    = (Ok "secret: redact1 redact0", (self', [])) ∧
    substitutions self' !! "x" = Some "redact1" ∧
    substitutions self' !! "secretA" = Some "redact0".
Proof.
  split; [reflexivity|]. split; [reflexivity|].
  eexists. split; [vm_compute; reflexivity|]. split; reflexivity.
Qed.

Lemma ipv4_candidates : candidates ipv4_instance "10.10.299.1" = ["10.10.299.1"].
Proof. vm_compute. reflexivity. Qed.

Lemma rejection_adds_nothing_witness :
  validator ipv4_instance = Some "validators/ipv4_address" ∧
  "validators/ipv4_address" ≠ EmptyString ∧
  (∀ secret w', secret ∈ candidates ipv4_instance "10.10.299.1" →
     substitutions ipv4_instance !! secret = None →
     ∃ status, rejects_299 w' ["validators/ipv4_address"; secret] = Exited status ∧
               status ≠ 0) ∧
  ∃ w',
    redact (order:=key_order) rejects_299 "10.10.299.1" (ipv4_instance, [])
    = (Ok (apply_all (@replacements key_order ipv4_instance) "10.10.299.1"),
       (ipv4_instance, w')) ∧
    ((∀ secret, is_Some (substitutions ipv4_instance !! secret) →
        ¬ Str.occurs secret "10.10.299.1") →
     redact (order:=key_order) rejects_299 "10.10.299.1" (ipv4_instance, [])
     = (Ok "10.10.299.1", (ipv4_instance, w'))).
Proof.
  assert (∀ secret w', secret ∈ candidates ipv4_instance "10.10.299.1" →
     substitutions ipv4_instance !! secret = None →
     ∃ status, rejects_299 w' ["validators/ipv4_address"; secret] = Exited status ∧
               status ≠ 0) as Hrej.
  { intros secret w' Hin _. rewrite ipv4_candidates in Hin.
    apply list_elem_of_singleton in Hin as ->. exists 1. split; [reflexivity|lia]. }
  split; [reflexivity|]. split; [discriminate|]. split; [exact Hrej|].
  exact (proj2 (rejection_adds_nothing (order:=key_order) rejects_299 ipv4_instance []
                  "10.10.299.1" "validators/ipv4_address" eq_refl
                  ltac:(discriminate) Hrej)).
Defined.

(** C5 as stated fails: the validator returns 1 for the candidate
    [10.10.299.1], which gets no entry, and yet the line comes back
    modified, because the other candidate of the line was accepted. *)
Lemma rejection_line_modified :
  __init__ "redact" (Some ["\d+\.\d+\.\d+\.\d+"]) None (Some "validators/ipv4_address")
  = Ok ipv4_instance ∧
  "10.10.299.1" ∈ candidates ipv4_instance "10.10.255.1 10.10.299.1" ∧
  (∀ w, rejects_299 w ["validators/ipv4_address"; "10.10.299.1"] = Exited 1) ∧
  ∃ self' w',
    redact (order:=key_order) rejects_299 "10.10.255.1 10.10.299.1" (ipv4_instance, [])
    = (Ok "redact0 10.10.299.1", (self', w')) ∧
    substitutions self' !! "10.10.299.1" = None ∧
    "redact0 10.10.299.1" ≠ "10.10.255.1 10.10.299.1".
Proof.
  split; [reflexivity|]. split.
  { assert (candidates ipv4_instance "10.10.255.1 10.10.299.1"
            = ["10.10.255.1"; "10.10.299.1"]) as -> by (vm_compute; reflexivity).
    set_solver. }
  split; [reflexivity|].
  eexists _, _. split; [vm_compute; reflexivity|]. split; [reflexivity|discriminate].
Qed.

Lemma construction_outcome_witness :
  AnyRe.__init__ (re:=model_re) "redact" (Some ["secretA"; "(a)(b)"]) None None
  = Raise (AttributeError (too_many_message "(a)(b)")).
Proof.
  apply (proj1 (proj2 (proj2 (construction_outcome (re:=model_re)
                                "redact" (Some ["secretA"; "(a)(b)"]) None None)))).
  right. split; [by intros [? _]|]. exists "(a)(b)". split.
  - exists ["secretA"], []. split; [reflexivity|].
    repeat constructor. eexists. split; [reflexivity|]. right. split; [reflexivity|].
    eexists. reflexivity.
  - left. split; [|reflexivity]. eexists. split; [reflexivity|].
    apply Nat.ltb_lt. vm_compute. reflexivity.
Defined.

(** C6 as stated fails: a pattern is given, no pattern has more than one
    capturing group, and construction neither succeeds nor raises the
    configuration error: [re.compile] raises its own error. *)
Lemma construction_malformed_pattern :
  some_patterns (Some ["("]) = true ∧
  (∀ compiled, Re.compile "(" = Ok compiled → ¬ (1 < Re.groups compiled)%nat) ∧
  __init__ "redact" (Some ["("]) None None = Raise (ReError "unbalanced parenthesis") ∧
  (¬ ∃ r, __init__ "redact" (Some ["("]) None None = Ok r) ∧
  (¬ ∃ msg, __init__ "redact" (Some ["("]) None None = Raise (AttributeError msg)).
Proof.
  split; [reflexivity|]. split; [intros compiled; discriminate|].
  split; [reflexivity|]. split; intros [? ?]; discriminate.
Qed.

Lemma wrapping_is_equivalent_witness :
  ∃ compiled,
    re_compile (ReLibrary:=model_re) "A\S*" = Ok compiled ∧ re_groups compiled = 0%nat ∧
    (∀ w, re_compile (ReLibrary:=model_re) (wrapped "A\S*") = Ok w → re_groups w = 1%nat) ∧
    AnyRe.compile_regex (re:=model_re) "A\S*"
    = AnyRe.compile_regex (re:=model_re) (wrapped "A\S*") ∧
    AnyRe.__init__ (re:=model_re) "redact" (Some ([] ++ "A\S*" :: [])) None None
    = AnyRe.__init__ (re:=model_re) "redact" (Some ([] ++ wrapped "A\S*" :: [])) None None.
Proof.
  exists (Re.mkPattern "A\S*"
            (Re.Seq (Re.Chr (Re.CLit "A")) (Re.Seq (Re.Rep 0 None true (Re.CSpace true)) Re.Eps))).
  assert (∀ w, re_compile (ReLibrary:=model_re) (wrapped "A\S*") = Ok w → re_groups w = 1%nat)
    as Hone by (intros w [= <-]; reflexivity).
  split; [reflexivity|]. split; [reflexivity|]. split; [exact Hone|].
  destruct (proj2 (wrapping_is_equivalent (re:=model_re) "A\S*" _ eq_refl eq_refl) Hone)
    as [Hc Hi].
  split; [exact Hc|]. exact (proj1 (Hi "redact" [] [] None None)).
Defined.

Lemma substitution_split_at_last_equals_witness :
  ¬ has_char "=" " c" ∧
  read_uncommented_lines (Some ["# table"; " a=b = c "; ""; "d=e"])
  = [] ++ ("a=b " +:+ "=" +:+ " c") :: ["d=e"] ∧
  ∃ r, AnyRe.create (re:=model_re) "redact" None
         (Some ["# table"; " a=b = c "; ""; "d=e"]) None = Ok (Some r) ∧
       AnyRe.substitutions r !! "a=b" = Some "c".
Proof.
  assert (¬ has_char "=" " c") as Hno.
  { intros (pre & post & H). destruct pre as [|a [|b [|c pre]]]; discriminate. }
  split; [exact Hno|]. split; [reflexivity|].
  destruct (proj2 (substitution_split_at_last_equals (re:=model_re) "a=b " " c" Hno)
              "redact" None (Some ["# table"; " a=b = c "; ""; "d=e"]) None [] ["d=e"] eq_refl)
    as [Hex Hin].
  destruct (Hex (Forall_nil_2 _)) as [r Hr].
  exists r. split; [exact Hr|].
  apply (proj1 (proj2 (Hin r Hr))).
  intros Hd. apply list_elem_of_singleton in Hd. discriminate Hd.
Defined.

Lemma no_match_no_change_witness :
  (∀ pattern, pattern ∈ patterns two_patterns → Re.findall pattern "nothing here" = []) ∧
  ∃ out,
    redact (order:=key_order) no_process "nothing here" (two_patterns, [])
    = (Ok out, (two_patterns, [])).
Proof.
  assert (∀ pattern, pattern ∈ patterns two_patterns →
            Re.findall pattern "nothing here" = []) as Hno.
  { intros pattern Hin. simpl in Hin.
    apply elem_of_cons in Hin as [->|Hin]; [reflexivity|].
    apply list_elem_of_singleton in Hin as ->. reflexivity. }
  split; [exact Hno|].
  exact (proj1 (no_match_no_change (order:=key_order) no_process two_patterns []
                  "nothing here" Hno)).
Defined.

Lemma redact_deterministic_witness :
  same_settings seeded_instance (mkRedacter "redact" [] {["secretA" := "x"]} 0 (Some "")) ∧
  ∃ out1 out2 r1' r2',
    redact (order:=key_order) no_process "secretA" (seeded_instance, [])
    = (Ok out1, (r1', [])) ∧
    redact (order:=reverse_order) rejects_299 "secretA"
      (mkRedacter "redact" [] {["secretA" := "x"]} 0 (Some ""), [["ls"]])
    = (Ok out2, (r2', [["ls"]])) ∧
    same_settings r1' r2' ∧
    (@iteritems key_order (substitutions r1') = @iteritems reverse_order (substitutions r2') →
     out1 = out2) ∧
    ((∀ k1 k2, is_Some (substitutions r1' !! k1) → is_Some (substitutions r1' !! k2) →
        Str.len k1 = Str.len k2 → k1 = k2) →
     out1 = out2).
Proof.
  split; [by repeat split|].
  exact (redact_deterministic key_order reverse_order no_process rejects_299 seeded_instance
           (mkRedacter "redact" [] {["secretA" := "x"]} 0 (Some "")) [] [["ls"]] "secretA"
           ltac:(by repeat split) (or_introl eq_refl) (or_intror eq_refl)).
Defined.

(** C10 as stated fails: two instances with the same patterns, table,
    counter and base string, whose tables are iterated in different orders,
    return different lines: the secrets [ab] and [bg] have the same length
    and overlap in [abg], and the one that comes first in the iteration is
    the one replaced. *)
Lemma redact_depends_on_dict_order :
  same_settings overlapping_instance overlapping_instance ∧
  no_validator overlapping_instance ∧
  @iteritems key_order (substitutions overlapping_instance) = [("ab", "X"); ("bg", "Y")] ∧
  @iteritems reverse_order (substitutions overlapping_instance) = [("bg", "Y"); ("ab", "X")] ∧
  redact (order:=key_order) no_process "abg" (overlapping_instance, [])
  = (Ok "Xg", (overlapping_instance, [])) ∧
  redact (order:=reverse_order) no_process "abg" (overlapping_instance, [])
  = (Ok "aY", (overlapping_instance, [])).
Proof.
  split; [by repeat split|]. split; [by left|].
  split; [vm_compute; reflexivity|]. split; [vm_compute; reflexivity|].
  split; vm_compute; reflexivity.
Qed.

(** * Further properties of the program *)

(** ** Patterns of an instance *)

Lemma compile_regex_one_group regex p :
  compile_regex regex = Ok p → Re.groups p = 1%nat.
Proof.
  unfold compile_regex. destruct (Re.compile regex) as [c|e] eqn:Hc; [|done].
  cbv [mbind result_bind].
  destruct (1 <? Re.groups c)%nat eqn:E1; [done|].
  destruct (Re.groups c =? 0)%nat eqn:E0.
  - apply Nat.eqb_eq in E0. destruct (compile_wrapped _ _ Hc E0) as (q & -> & Hq).
    by intros [= <-].
  - intros [= <-]. apply Nat.ltb_ge in E1. apply Nat.eqb_neq in E0. lia.
Qed.

Lemma map_result_Forall {A B} (f : A → result B) (P : B → Prop) l ys :
  (∀ x y, f x = Ok y → P y) → map_result f l = Ok ys → Forall P ys.
Proof.
  intros Hf. revert ys. induction l as [|x l IH]; intros ys; simpl.
  - by intros [= <-].
  - destruct (f x) as [y|e] eqn:Hx; [|done]. simpl.
    destruct (map_result f l) as [ys'|e]; [|done]. simpl. intros [= <-].
    constructor; eauto.
Qed.

Lemma init_patterns base pats subs v r :
  __init__ base pats subs v = Ok r → Forall (λ p, Re.groups p = 1%nat) (patterns r).
Proof.
  unfold __init__. destruct (negb _ && negb _); [done|].
  destruct (some_patterns pats).
  - destruct (map_result compile_regex (default [] pats)) as [ps|e] eqn:Hm; [|done].
    simpl. intros [= <-]. simpl.
    eapply map_result_Forall; [|exact Hm]. apply compile_regex_one_group.
  - simpl. intros [= <-]. constructor.
Qed.

Section Instance.
Context {order : DictOrder}.
Variable call : world → list string → proc.

(** What a call of [redact] leaves alone, however it ends. *)
Lemma redact_keeps line r w o r' w' :
  redact call line (r, w) = (o, (r', w')) →
  patterns r' = patterns r ∧ substitution_string r' = substitution_string r ∧
  validator r' = validator r ∧ _counter r ≤ _counter r' ∧
  (size (substitutions r) ≤ size (substitutions r'))%nat.
Proof.
  intros H.
  apply (redact_preserves call
           (λ self, patterns self = patterns r ∧
                    substitution_string self = substitution_string r ∧
                    validator self = validator r ∧ _counter r ≤ _counter self ∧
                    (size (substitutions r) ≤ size (substitutions self))%nat)
           ltac:(clear; intros self secret (? & ? & ? & ? & ?) Hnone; simpl;
                 rewrite map_size_insert_None by done; split_and!; [done..|lia|lia])
           line (r, w) o (r', w')); [|done].
  simpl. split_and!; [done..|lia|lia].
Qed.

(** The first loop fails only when the validator cannot be started, on a
    string that is then not in the table. *)
Lemma for_each_consider_raise l r w e st' :
  for_each l (consider call) (r, w) = (Raise e, st') →
  e = OSError ∧
  ∃ w0 path secret,
    validator r = Some path ∧ path ≠ EmptyString ∧ secret ∈ l ∧
    call w0 [path; secret] = NotStarted ∧ st'.2 = w0 ++ [[path; secret]] ∧
    substitutions st'.1 !! secret = None.
Proof.
  revert r w. induction l as [|x l IH]; intros r w; simpl; [done|].
  unfold mbind, M_bind. rewrite consider_cases.
  case_decide as Hin.
  { intros H. destruct (IH _ _ H) as (-> & w0 & path & secret & ? & ? & ? & ? & ? & ?).
    split; [done|]. exists w0, path, secret. split_and!; [done..|by right|done|done|done]. }
  destruct (validator r) as [[|a path]|] eqn:Hv.
  - intros H. destruct (IH _ _ H) as (-> & w0 & path & secret & Hv' & ? & ? & ? & ? & ?).
    simpl in Hv'. congruence.
  - destruct (call w [String a path; x]) as [status|] eqn:Hcall.
    + intros H. destruct (IH _ _ H) as (-> & w0 & path' & secret & Hv' & ? & ? & ? & ? & ?).
      split; [done|]. exists w0, path', secret.
      split_and!; [|done|by right|done|done|done].
      rewrite <- Hv'. by destruct (bool_decide (status = 0)).
    + intros [= <- <-]. split; [done|]. exists w, (String a path), x.
      split_and!; [done|done|by left|done|done|]. simpl. by apply eq_None_not_Some.
  - intros H. destruct (IH _ _ H) as (-> & w0 & path & secret & Hv' & ? & ? & ? & ? & ?).
    simpl in Hv'. congruence.
Qed.

(** X2. What a call of [redact] leaves alone, and when it can fail: the
    patterns, the base string and the validator stay as they are, the
    counter never goes down and no entry of the table is lost or changed,
    however the call ends; without a validator the call returns and runs
    nothing; a call that raises an exception is one of an instance with a
    validator, raised for a candidate of the line that is left without an
    entry; and the exception is never the [KeyError] of the second loop. *)
Theorem redact_frame_and_failure line r w o r' w' :
  redact call line (r, w) = (o, (r', w')) →
  patterns r' = patterns r ∧ substitution_string r' = substitution_string r ∧
  validator r' = validator r ∧ _counter r ≤ _counter r' ∧
  substitutions r ⊆ substitutions r' ∧
  (no_validator r → (∃ out, o = Ok out) ∧ w' = w) ∧
  (∀ e, o = Raise e →
     (∀ key, e ≠ KeyError key) ∧ ¬ no_validator r ∧
     ∃ secret, secret ∈ candidates r line ∧ substitutions r' !! secret = None).
Proof.
  intros Hred.
  destruct (redact_keeps _ _ _ _ _ _ Hred) as (Hp & Hb & Hv & Hc & _).
  split_and!; [done..| | |].
  - apply (reaches_grows call). eapply reaches_redact; [apply reaches_here|exact Hred].
  - intros Hno. destruct (redact_accepted call _ _ _ _ _ _ Hred) as (acc & _ & _ & _ & _ & Hn & _).
    by destruct (Hn Hno) as (_ & ? & ?).
  - intros e ->. revert Hred. rewrite redact_unfold, discover_flat.
    destruct (for_each _ _ _) as [[[]|e'] st1] eqn:Hloop; [done|].
    intros [= -> ->].
    destruct (for_each_consider_raise _ _ _ _ _ Hloop)
      as (-> & w0 & path & secret & Hv' & Hpath & Hin & Hcall & Hw & Hnone).
    split_and!; [done| |].
    + intros [Hn|Hn]; congruence.
    + exists secret. done.
Qed.

(** X3. The counter counts the entries added: for an instance built by
    [__init__], after any calls of [redact] the table has as many entries
    more than at construction as the counter says. *)
Theorem counter_counts_entries base pats subs v r r' :
  __init__ base pats subs v = Ok r →
  reaches call r r' →
  Z.of_nat (size (substitutions r')) = Z.of_nat (size (substitutions r)) + _counter r'.
Proof.
  intros Hinit Hr. destruct (init_fields _ _ _ _ _ Hinit) as (_ & Hc & _ & _).
  apply (reaches_preserves call
           (λ r', Z.of_nat (size (substitutions r'))
                  = Z.of_nat (size (substitutions r)) + _counter r') r r'); [| |done].
  - intros self secret Hself Hnone. simpl. rewrite map_size_insert_None by done. lia.
  - lia.
Qed.

End Instance.

(** ** Calls without a validator *)

Lemma note_patterns self secret : patterns (note self secret) = patterns self.
Proof. unfold note. by case_decide. Qed.

Lemma notes_patterns l self : patterns (foldl note self l) = patterns self.
Proof.
  revert self. induction l as [|x l IH]; intros self; simpl; [done|].
  by rewrite IH, note_patterns.
Qed.

Lemma notes_validator_eq l self : validator (foldl note self l) = validator self.
Proof.
  revert self. induction l as [|x l IH]; intros self; simpl; [done|].
  by rewrite IH, note_validator.
Qed.

Lemma note_grows self secret : substitutions self ⊆ substitutions (note self secret).
Proof.
  unfold note. case_decide as Hin; [done|]. simpl.
  apply insert_subseteq. by apply eq_None_not_Some.
Qed.

Lemma notes_grow l self : substitutions self ⊆ substitutions (foldl note self l).
Proof.
  revert self. induction l as [|x l IH]; intros self; simpl; [done|].
  etrans; [apply (note_grows self x) | apply IH].
Qed.

Lemma notes_known l self secret :
  secret ∈ l → is_Some (substitutions (foldl note self l) !! secret).
Proof.
  revert self. induction l as [|x l IH]; intros self Hin; [by apply elem_of_nil in Hin|].
  simpl. apply elem_of_cons in Hin as [->|Hin]; [|by apply IH].
  assert (is_Some (substitutions (note self x) !! x)) as [p Hp].
  { unfold note. case_decide; [done|]. simpl. rewrite lookup_insert_eq. eauto. }
  exists p. eapply lookup_weaken; [exact Hp | apply notes_grow].
Qed.

Lemma notes_all_known l self :
  (∀ secret, secret ∈ l → is_Some (substitutions self !! secret)) →
  foldl note self l = self.
Proof.
  induction l as [|x l IH]; intros Hl; simpl; [done|].
  assert (note self x = self) as ->.
  { unfold note. rewrite decide_True; [done|]. apply Hl. by left. }
  apply IH. intros. apply Hl. by right.
Qed.

(** X4. Without a validator, a second call of [redact] on the same line
    returns the same result as the first and changes nothing: all the
    candidates of the line are in the table after the first call. *)
Theorem redact_again_changes_nothing `{DictOrder} (call : world → list string → proc)
    line r w out r' w' :
  no_validator r →
  redact call line (r, w) = (Ok out, (r', w')) →
  (∀ secret, secret ∈ candidates r line → is_Some (substitutions r' !! secret)) ∧
  redact call line (r', w') = (Ok out, (r', w')).
Proof.
  intros Hv. rewrite (redact_no_validator call line r w Hv). simpl. intros [= <- <- <-].
  split; [intros secret; apply notes_known|].
  set (r' := foldl note r (candidates r line)).
  assert (no_validator r') as Hv'.
  { unfold no_validator, r'. by rewrite notes_validator_eq. }
  rewrite (redact_no_validator call line r' w Hv'). simpl.
  assert (candidates r' line = candidates r line) as ->.
  { unfold candidates, r'. by rewrite notes_patterns. }
  fold r'. rewrite (notes_all_known (candidates r line) r'); [done|].
  intros secret. apply notes_known.
Qed.

(** X5. One-to-one mapping: when the placeholders given at construction
    are all different and none of them is the base string followed by a
    counter value, then after any calls of [redact] two different secrets
    of the table never have the same placeholder. *)
Theorem table_one_to_one `{DictOrder} (call : world → list string → proc)
    base pats subs v r r' :
  __init__ base pats subs v = Ok r →
  (∀ k1 k2 p, substitutions r !! k1 = Some p → substitutions r !! k2 = Some p → k1 = k2) →
  (∀ k i, 0 ≤ i → substitutions r !! k ≠ Some (base +:+ Str.of_int i)) →
  reaches call r r' →
  ∀ k1 k2 p, substitutions r' !! k1 = Some p → substitutions r' !! k2 = Some p → k1 = k2.
Proof.
  intros Hinit Hinj Hfree Hr.
  destruct (init_fields _ _ _ _ _ Hinit) as (Hbase & Hzero & _ & _).
  assert (substitution_string r' = base ∧ numbered (substitutions r) r') as [Hb Hnum].
  { apply (reaches_preserves call (λ r', substitution_string r' = base ∧
                                          numbered (substitutions r) r') r r'); [| |done].
    - intros self secret [Hb Hn] Hnone. split; [done|]. by apply numbered_assigned.
    - split; [done|]. unfold numbered. rewrite Hzero. split_and!; [lia|done|..].
      + intros s p Hs Hn. congruence.
      + intros s1 s2 p H1 _ Hs1. congruence. }
  destruct Hnum as (Hc & Hsub & Hn & Hnew). intros k1 k2 p H1 H2.
  destruct (substitutions r !! k1) as [p1|] eqn:E1,
           (substitutions r !! k2) as [p2|] eqn:E2.
  - pose proof (lookup_weaken _ _ _ _ E1 Hsub). pose proof (lookup_weaken _ _ _ _ E2 Hsub).
    apply (Hinj k1 k2 p); congruence.
  - pose proof (lookup_weaken _ _ _ _ E1 Hsub) as H1'.
    destruct (Hn _ _ H2 E2) as (i & Hi & Hp). destruct (Hfree k1 i ltac:(lia)). congruence.
  - pose proof (lookup_weaken _ _ _ _ E2 Hsub) as H2'.
    destruct (Hn _ _ H1 E1) as (i & Hi & Hp). destruct (Hfree k2 i ltac:(lia)). congruence.
  - eauto.
Qed.

(** ** [str.strip] *)

Lemma rstrip_idem s : Str.rstrip (Str.rstrip s) = Str.rstrip s.
Proof.
  induction s as [|c t IH]; [done|]. simpl.
  destruct (Str.rstrip t) as [|c' t'] eqn:E.
  - destruct (Str.isspace c) eqn:Ec; [done|]. simpl. by rewrite Ec.
  - change (Str.rstrip (String c (String c' t'))) with
      (match Str.rstrip (String c' t') with
       | EmptyString => if Str.isspace c then EmptyString else String c EmptyString
       | t'' => String c t''
       end).
    by rewrite IH.
Qed.

Lemma rstrip_length s : (Str.len (Str.rstrip s) ≤ Str.len s)%nat.
Proof.
  induction s as [|c t IH]; simpl; [done|].
  destruct (Str.rstrip t) as [|c' t']; [destruct (Str.isspace c)|]; simpl in *; lia.
Qed.

Lemma lstrip_length s : (Str.len (Str.lstrip s) ≤ Str.len s)%nat.
Proof.
  induction s as [|c t IH]; simpl; [done|]. destruct (Str.isspace c); simpl; lia.
Qed.

Lemma lstrip_cases s :
  Str.lstrip s = EmptyString ∨
  ∃ c t, Str.lstrip s = String c t ∧ Str.isspace c = false.
Proof.
  induction s as [|c t IH]; simpl; [by left|].
  destruct (Str.isspace c) eqn:Ec; [done|]. right. eauto.
Qed.

Lemma rstrip_keeps_head c t :
  Str.isspace c = false → ∃ t', Str.rstrip (String c t) = String c t'.
Proof.
  intros Hc. simpl. destruct (Str.rstrip t); [rewrite Hc|]; eauto.
Qed.

Lemma strip_idem s : Str.strip (Str.strip s) = Str.strip s.
Proof.
  unfold Str.strip. destruct (lstrip_cases s) as [->|(c & t & -> & Hc)]; [done|].
  destruct (rstrip_keeps_head c t Hc) as [t' Ht]. rewrite Ht. simpl. rewrite Hc.
  rewrite <- Ht. apply rstrip_idem.
Qed.

(** A stripped string is empty, or starts with a character that is not
    white space and is left alone by [rstrip]. *)
Lemma stripped_cases s :
  stripped s →
  s = EmptyString ∨
  ∃ c t, s = String c t ∧ Str.isspace c = false ∧ Str.rstrip s = s.
Proof.
  unfold stripped, Str.strip. destruct s as [|c t]; [by left|]. intros Hs. right.
  exists c, t. destruct (Str.isspace c) eqn:Ec.
  - simpl in Hs. rewrite Ec in Hs.
    pose proof (rstrip_length (Str.lstrip t)). pose proof (lstrip_length t).
    rewrite Hs in *. simpl in *. lia.
  - simpl in Hs. rewrite Ec in Hs. done.
Qed.

Lemma rstrip_app_keep a b :
  Str.rstrip b ≠ EmptyString → Str.rstrip (a +:+ b) = a +:+ Str.rstrip b.
Proof.
  intros Hb. induction a as [|c a IH]; [done|]. simpl. rewrite IH.
  destruct (a +:+ Str.rstrip b) eqn:E; [|done].
  destruct a; simpl in E; [done|discriminate].
Qed.

Lemma rstrip_app_drop a b :
  Str.rstrip b = EmptyString → Str.rstrip (a +:+ b) = Str.rstrip a.
Proof.
  intros Hb. induction a as [|c a IH]; [done|]. simpl. by rewrite IH.
Qed.

(** ** Reading the configuration of one secret *)

(** Entries with different keys: the dict comprehension is the finite map
    of the list. *)
Lemma dict_of_NoDup l : NoDup l.*1 → dict_of l = list_to_map l.
Proof.
  induction l as [|[k v] l IH] using rev_ind; intros Hnd; [done|].
  rewrite fmap_app in Hnd. apply NoDup_app in Hnd as (Hnd & Hk & _).
  rewrite dict_of_snoc, IH by done. symmetry. apply list_to_map_snoc.
  intros Hin. apply (Hk _ Hin). simpl. by left.
Qed.

Lemma dict_of_entries `{DictOrder} d : dict_of (iteritems d) = d.
Proof.
  rewrite dict_of_NoDup.
  - rewrite <- (list_to_map_to_list d) at 2. apply list_to_map_proper.
    + rewrite iteritems_perm. apply NoDup_fst_map_to_list.
    + apply iteritems_perm.
  - rewrite iteritems_perm. apply NoDup_fst_map_to_list.
Qed.

Lemma parse_substitution_last pre post :
  ¬ has_char "=" post →
  parse_substitution (pre +:+ String "=" post) = (Str.strip pre, Str.strip post).
Proof.
  intros Hno. unfold parse_substitution. rewrite split_app by done.
  rewrite List.removelast_last, List.last_last.
  change "="%string with (String "=" EmptyString). by rewrite join_split.
Qed.

(** What [create] returns when it returns an instance. *)
Lemma create_fields base regex_file substitutions_file v r :
  create base regex_file substitutions_file v = Ok (Some r) →
  substitution_string r = base ∧ _counter r = 0 ∧ validator r = v ∧
  Forall (λ p, Re.groups p = 1%nat) (patterns r) ∧
  substitutions r
  = dict_of (parse_substitution <$> read_uncommented_lines substitutions_file).
Proof.
  unfold create. destruct (__init__ _ _ _ _) as [r'|e] eqn:Hinit; [|by destruct e].
  intros [= <-]. destruct (init_fields _ _ _ _ _ Hinit) as (Hb & Hc & Hv & Hs).
  split_and!; [done..|by eapply init_patterns|].
  rewrite Hs. simpl. by case_bool_decide as Hd.
Qed.

(** X6. A line of a substitutions file without [=] makes the empty string
    a secret whose placeholder is the whole (stripped) line. *)
Theorem substitution_without_equals line :
  ¬ has_char "=" line →
  parse_substitution line = (EmptyString, Str.strip line).
Proof.
  intros Hno. unfold parse_substitution. by rewrite split_no_sep.
Qed.

(** X7. When several lines of a substitutions file give the same secret,
    the table [create] builds has the placeholder of the last of them; a
    secret no line gives is not in the table. *)
Theorem create_last_line_wins base regex_file substitutions_file v r :
  create base regex_file substitutions_file v = Ok (Some r) →
  let entries := parse_substitution <$> read_uncommented_lines substitutions_file in
  (∀ before secret placeholder after,
     entries = before ++ (secret, placeholder) :: after → secret ∉ after.*1 →
     substitutions r !! secret = Some placeholder) ∧
  (∀ secret, secret ∉ entries.*1 → substitutions r !! secret = None).
Proof.
  intros Hc entries. destruct (create_fields _ _ _ _ _ Hc) as (_ & _ & _ & _ & ->).
  fold entries. split.
  - intros before secret placeholder after -> Hlast. by apply dict_of_lookup_last.
  - apply dict_of_lookup_None.
Qed.

Section CreateAny.
Context {re : ReLibrary}.

(** X1. An instance built by [__init__] has one pattern object for each
    pattern given, in the same order: what [re.compile] gives for the
    pattern when that has exactly one capturing group, and what it gives
    for the pattern in parentheses when the pattern has none.  So every
    pattern object of the instance has exactly one group, as soon as a
    pattern in parentheses has one group when the pattern has none. *)
Theorem instance_patterns_compiled_from base pats subs v r :
  AnyRe.__init__ base pats subs v = Ok r →
  Forall2 AnyRe.compiled_from (default [] pats) (AnyRe.patterns r) ∧
  ((∀ regex compiled w,
      re_compile regex = Ok compiled → re_groups compiled = 0%nat →
      re_compile (wrapped regex) = Ok w → re_groups w = 1%nat) →
   Forall (λ p, re_groups p = 1%nat) (AnyRe.patterns r)).
Proof.
  intros Hinit. destruct (any_init_fields _ _ _ _ _ Hinit) as (_ & _ & _ & _ & Hp).
  split; [done|]. intros Hone. apply Forall_forall. intros p Hin.
  apply list_elem_of_lookup in Hin as [i Hi].
  destruct (Forall2_lookup_r _ _ _ _ _ Hp Hi) as (regex & _ & [[_ ?]|(c & Hc & H0 & Hw)]);
    [done|eauto].
Qed.

(** X8. [create] never lets [AttributeError] through; it returns [None]
    when the two files give no line (they cannot be read, or hold only
    blank lines and comments); and an instance it returns has the given
    name as base string, the given validator, counter 0, the table of the
    lines of the substitutions file and one pattern object for each line
    of the patterns file, and at least one of the files gave a line. *)
Theorem create_none_or_instance base regex_file substitutions_file v :
  (∀ msg, AnyRe.create base regex_file substitutions_file v ≠ Raise (AttributeError msg)) ∧
  (read_uncommented_lines regex_file = [] →
   read_uncommented_lines substitutions_file = [] →
   AnyRe.create base regex_file substitutions_file v = Ok None) ∧
  (∀ r, AnyRe.create base regex_file substitutions_file v = Ok (Some r) →
     AnyRe.substitution_string r = base ∧ AnyRe._counter r = 0 ∧ AnyRe.validator r = v ∧
     AnyRe.substitutions r
     = dict_of (parse_substitution <$> read_uncommented_lines substitutions_file) ∧
     Forall2 AnyRe.compiled_from (read_uncommented_lines regex_file) (AnyRe.patterns r) ∧
     (read_uncommented_lines regex_file ≠ [] ∨
      read_uncommented_lines substitutions_file ≠ [])).
Proof.
  split_and!.
  - intros msg. unfold AnyRe.create. destruct (AnyRe.__init__ _ _ _ _) as [r|[]]; done.
  - intros Hp Hs. unfold AnyRe.create. by rewrite Hp, Hs.
  - intros r Hc.
    destruct (proj1 (any_create_cases base regex_file substitutions_file v) r Hc)
      as (? & ? & ? & ? & ? & Hsome).
    split_and!; [done..|].
    destruct Hsome as [?|Hd]; [by left|right]. intros Hs. apply Hd. by rewrite Hs.
Qed.

End CreateAny.

(** X9. [read_uncommented_lines] yields nothing for a file that cannot be
    read, and otherwise exactly the stripped lines of the file that are
    neither empty nor comments, each already stripped: white space around
    a line, and before a [#], is not seen by the caller. *)
Theorem uncommented_lines_are_clean file line :
  read_uncommented_lines None = [] ∧
  (line ∈ read_uncommented_lines file ↔
   ∃ lines raw, file = Some lines ∧ raw ∈ lines ∧ line = Str.strip raw ∧
     line ≠ EmptyString ∧ Str.startswith line "#" = false) ∧
  (line ∈ read_uncommented_lines file → stripped line).
Proof.
  split; [done|].
  assert (line ∈ read_uncommented_lines file ↔
          ∃ lines raw, file = Some lines ∧ raw ∈ lines ∧ line = Str.strip raw ∧
            line ≠ EmptyString ∧ Str.startswith line "#" = false) as Hiff.
  { destruct file as [lines|]; simpl.
    - rewrite list_elem_of_filter, list_elem_of_fmap. split.
      + intros ([Hne Hc] & raw & -> & Hraw). exists lines, raw. done.
      + intros (lines' & raw & [= <-] & Hraw & -> & Hne & Hc). split; [done|]. eauto.
    - split; [by intros ?%elem_of_nil | by intros (? & ? & ? & _)]. }
  split; [exact Hiff|].
  intros (lines & raw & _ & _ & -> & _)%Hiff. apply strip_idem.
Qed.

(** ** Writing a table and reading it back *)

Lemma append_assoc_1 s1 s2 s3 : s1 +:+ s2 +:+ s3 = (s1 +:+ s2) +:+ s3.
Proof. induction s1 as [|c s1 IH]; simpl; [done | by rewrite IH]. Qed.

Lemma has_char_cons c a s : has_char c (String a s) ↔ a = c ∨ has_char c s.
Proof.
  unfold has_char, Str.occurs. split.
  - intros (pre & post & H). destruct pre as [|b pre]; simpl in H.
    + injection H as -> _. by left.
    + injection H as _ ->. right. eauto.
  - intros [->|(pre & post & ->)].
    + by exists EmptyString, s.
    + by exists (String a pre), post.
Qed.

Lemma has_char_empty c : ¬ has_char c EmptyString.
Proof. intros (pre & post & H). destruct pre; discriminate. Qed.

Lemma has_char_app c s1 s2 : has_char c (s1 +:+ s2) ↔ has_char c s1 ∨ has_char c s2.
Proof.
  induction s1 as [|a s1 IH]; simpl.
  - pose proof (has_char_empty c). tauto.
  - rewrite !has_char_cons, IH. tauto.
Qed.

Lemma file_lines_line l rest :
  ¬ has_char "010" l →
  Os.file_lines (l +:+ String "010" rest) = (l +:+ String "010" EmptyString) :: Os.file_lines rest.
Proof.
  induction l as [|c l IH]; intros Hno; simpl; [done|].
  rewrite has_char_cons in Hno. rewrite bool_decide_false by tauto.
  rewrite IH by tauto. done.
Qed.

(** A file iterated line by line loses nothing. *)
Lemma file_lines_concat content :
  foldr String.append EmptyString (Os.file_lines content) = content.
Proof.
  induction content as [|c t IH]; simpl; [done|].
  case_bool_decide as Hc; simpl; [by rewrite IH|].
  destruct (Os.file_lines t) as [|l ls]; simpl in *; by rewrite <- IH.
Qed.

Lemma append_middle pre c post :
  (pre +:+ String c EmptyString) +:+ post = pre +:+ String c post.
Proof. induction pre as [|a pre IH]; simpl; [done | by rewrite IH]. Qed.

Lemma entry_line_parts k v :
  entry_line k v
  = ((k +:+ " ") +:+ "=") +:+ (" " +:+ v +:+ String "010" EmptyString).
Proof. unfold entry_line. rewrite <- !append_assoc_1. reflexivity. Qed.

Lemma rstrip_after_equals a v :
  stripped v →
  Str.rstrip ((a +:+ "=") +:+ (" " +:+ v +:+ String "010" EmptyString))
  = (a +:+ "=") +:+ after_equals v.
Proof.
  intros Hv. destruct (stripped_cases v Hv) as [->|(c & t & -> & Hc & Hrs)].
  - rewrite rstrip_app_drop by done. rewrite rstrip_app_keep by done.
    by rewrite append_middle.
  - assert (Str.rstrip (String c t +:+ String "010" EmptyString) = String c t) as Hr
      by (by rewrite rstrip_app_drop).
    assert (Str.rstrip (" " +:+ String c t +:+ String "010" EmptyString)
            = " " +:+ String c t) as Hr'.
    { rewrite (rstrip_app_keep " " (String c t +:+ String "010" EmptyString));
        by rewrite Hr. }
    rewrite rstrip_app_keep; by rewrite Hr'.
Qed.

Lemma strip_after_equals v : stripped v → Str.strip (after_equals v) = v.
Proof.
  intros Hv. destruct (stripped_cases v Hv) as [->|(c & t & -> & Hc & Hrs)]; [done|].
  unfold Str.strip. simpl Str.lstrip. by rewrite Hc.
Qed.

(** A written line, stripped, is the secret, [=] and the placeholder with
    white space that [strip] removes again. *)
Lemma strip_entry_line k v :
  stripped k → stripped v →
  ∃ pre,
    Str.strip (entry_line k v) = pre +:+ String "=" (after_equals v) ∧
    Str.strip pre = k ∧
    Str.startswith (pre +:+ String "=" (after_equals v)) "#" = Str.startswith k "#".
Proof.
  intros Hk Hv. rewrite entry_line_parts. unfold Str.strip at 1.
  destruct (stripped_cases k Hk) as [->|(c & t & -> & Hc & Hrs)].
  - exists EmptyString.
    change (Str.lstrip (((EmptyString +:+ " ") +:+ "=") +:+
                        (" " +:+ v +:+ String "010" EmptyString)))
      with ((EmptyString +:+ "=") +:+ (" " +:+ v +:+ String "010" EmptyString)).
    rewrite rstrip_after_equals by done. by rewrite append_middle.
  - exists (String c t +:+ " ").
    assert (Str.lstrip (((String c t +:+ " ") +:+ "=") +:+
                        (" " +:+ v +:+ String "010" EmptyString))
            = ((String c t +:+ " ") +:+ "=") +:+
              (" " +:+ v +:+ String "010" EmptyString)) as ->
      by (simpl; by rewrite Hc).
    rewrite rstrip_after_equals by done. rewrite append_middle. split_and!; [done| |].
    + unfold Str.strip.
      assert (Str.lstrip (String c t +:+ " ") = String c t +:+ " ") as ->
        by (simpl; by rewrite Hc).
      by rewrite rstrip_app_drop.
    + simpl. destruct (decide ("#"%char = c)); [|done].
      generalize ((t +:+ " ") +:+ String "=" (after_equals v)). intros s.
      by destruct t, s.
Qed.

Lemma parse_entry_line k v :
  stripped k → stripped v → ¬ has_char "=" v →
  parse_substitution (Str.strip (entry_line k v)) = (k, v) ∧
  Str.strip (entry_line k v) ≠ EmptyString ∧
  Str.startswith (Str.strip (entry_line k v)) "#" = Str.startswith k "#".
Proof.
  intros Hk Hv Hno. destruct (strip_entry_line k v Hk Hv) as (pre & -> & Hpre & Hhash).
  split_and!; [|by destruct pre|done].
  rewrite parse_substitution_last.
  - by rewrite Hpre, strip_after_equals.
  - destruct v as [|c t]; simpl; [apply has_char_empty|].
    rewrite has_char_cons. by intros [?|?].
Qed.

Lemma entry_line_newline k v :
  entry_line k v = ((k +:+ " = ") +:+ v) +:+ String "010" EmptyString.
Proof. unfold entry_line. by rewrite !append_assoc_1. Qed.

Lemma file_lines_entries (l : list (string * string)) :
  (∀ kv, kv ∈ l → ¬ has_char "010" kv.1 ∧ ¬ has_char "010" kv.2) →
  Os.file_lines (foldr String.append EmptyString ((λ kv, entry_line kv.1 kv.2) <$> l))
  = (λ kv, entry_line kv.1 kv.2) <$> l.
Proof.
  induction l as [|[k v] l IH]; intros Hl; [done|].
  cbn [fmap list_fmap foldr fst snd]. rewrite entry_line_newline at 1.
  rewrite append_middle, file_lines_line.
  - rewrite <- entry_line_newline. f_equal. apply IH. intros kv Hkv. apply Hl. by right.
  - destruct (Hl (k, v) ltac:(by left)) as [Hk Hv]. simpl in Hk, Hv.
    rewrite !has_char_app. intros [[?|Hsp]|?]; [done| |done].
    revert Hsp. rewrite !has_char_cons. intros [?|[?|[?|?%has_char_empty]]]; done.
Qed.

Lemma read_back_entries (l : list (string * string)) :
  (∀ kv, kv ∈ l → storable kv.1 kv.2) →
  parse_substitution <$>
    read_uncommented_lines (Some ((λ kv, entry_line kv.1 kv.2) <$> l)) = l.
Proof.
  unfold read_uncommented_lines.
  induction l as [|[k v] l IH]; intros Hl; [done|].
  destruct (Hl (k, v) ltac:(by left)) as (Hk & Hv & _ & _ & Heq & Hhash). simpl in *.
  destruct (parse_entry_line k v Hk Hv Heq) as (Hparse & Hne & Hstart).
  rewrite filter_cons_True by (by rewrite Hstart).
  cbn [fmap list_fmap]. rewrite Hparse. f_equal. apply IH. intros kv Hkv. apply Hl. by right.
Qed.

Section RoundTrip.
Context {order : DictOrder}.

(** X10. The file [main] writes for an instance, read back as a
    substitutions file, gives the table of the instance again, when every
    secret and placeholder of the table is stripped and without newline,
    no placeholder holds [=] and no secret starts with [#]; [create] on
    that file then builds an instance with this very table. *)
Theorem written_table_reads_back r :
  (∀ secret placeholder,
     substitutions r !! secret = Some placeholder → storable secret placeholder) →
  dict_of (parse_substitution <$> read_uncommented_lines (Some (Os.file_lines (dump r))))
  = substitutions r ∧
  ∀ base regex_file v r2,
    create base regex_file (Some (Os.file_lines (dump r))) v = Ok (Some r2) →
    substitutions r2 = substitutions r.
Proof.
  intros Hstor.
  assert (∀ kv, kv ∈ iteritems (substitutions r) → storable kv.1 kv.2) as Hall.
  { intros [k v] Hkv. apply Hstor. rewrite iteritems_perm in Hkv.
    by apply elem_of_map_to_list in Hkv. }
  assert (dict_of (parse_substitution <$>
                     read_uncommented_lines (Some (Os.file_lines (dump r))))
          = substitutions r) as Hback.
  { unfold dump. rewrite file_lines_entries.
    - rewrite read_back_entries by done. apply dict_of_entries.
    - intros kv Hkv. destruct (Hall kv Hkv) as (_ & _ & ? & ? & _). done. }
  split; [done|]. intros base regex_file v r2 Hc.
  destruct (create_fields _ _ _ _ _ Hc) as (_ & _ & _ & _ & ->). done.
Qed.

End RoundTrip.

(** ** [get_config] *)

Section Config.
Variable listdir : string → option (list string).

Lemma config_path_register d ct secrets n name ct' :
  config_path (register d ct secrets n) name ct' =
  match config_path secrets name ct' with
  | Some path => Some path
  | None => if decide (name = n ∧ ct' = ct) then Some (Os.path_join d [ct; n]) else None
  end.
Proof.
  unfold register, config_path.
  destruct (decide (name = n)) as [->|Hn].
  - destruct (secrets !! n) as [known|] eqn:Hs; simpl.
    + case_decide as Hk; rewrite lookup_insert_eq; simpl.
      * destruct (known !! ct') eqn:E; [done|]. rewrite decide_False; [done|].
        intros [_ ->]. rewrite E in Hk. by destruct Hk.
      * destruct (decide (ct' = ct)) as [->|Hct].
        -- rewrite lookup_insert_eq. apply eq_None_not_Some in Hk. rewrite Hk.
           by rewrite decide_True.
        -- rewrite lookup_insert_ne by done. destruct (known !! ct'); [done|].
           rewrite decide_False; [done|]. by intros [_ ?].
    + rewrite lookup_empty. rewrite decide_False by (by intros [? ?]).
      rewrite lookup_insert_eq. simpl.
      destruct (decide (ct' = ct)) as [->|Hct].
      * rewrite lookup_insert_eq. by rewrite decide_True.
      * rewrite lookup_insert_ne, lookup_empty by done.
        rewrite decide_False; [done|]. by intros [_ ?].
  - assert (∀ m : gmap string string, (<[n := m]> secrets) !! name = secrets !! name) as Hne
      by (intros; by rewrite lookup_insert_ne).
    case_decide; rewrite Hne; destruct (secrets !! name ≫= _); try done;
      rewrite decide_False; try done; by intros [? ?].
Qed.

Lemma config_path_registers d ct files secrets name ct' :
  config_path (foldl (register d ct) secrets files) name ct' =
  match config_path secrets name ct' with
  | Some path => Some path
  | None =>
      if decide (ct' = ct ∧ name ∈ files) then Some (Os.path_join d [ct; name]) else None
  end.
Proof.
  revert secrets. induction files as [|n files IH]; intros secrets; simpl.
  - destruct (config_path secrets name ct'); [done|].
    rewrite decide_False; [done|]. by intros [_ ?%elem_of_nil].
  - rewrite IH, config_path_register.
    destruct (config_path secrets name ct') as [path|]; [done|].
    destruct (decide (name = n ∧ ct' = ct)) as [[-> ->]|Hn].
    + rewrite decide_True; [done|]. split; [done|by left].
    + destruct (decide (ct' = ct ∧ name ∈ files)) as [[-> Hin]|Hf].
      * rewrite decide_True; [done|]. split; [done|by right].
      * rewrite decide_False; [done|]. intros [-> [->|?]%elem_of_cons]; tauto.
Qed.

Lemma config_path_scan d secrets ct name ct' :
  config_path (scan listdir d secrets ct) name ct' =
  match config_path secrets name ct' with
  | Some path => Some path
  | None => if decide (ct' = ct) then found_in listdir d ct name else None
  end.
Proof.
  unfold scan, found_in. destruct (listdir (Os.path_join d [ct])) as [files|].
  - rewrite config_path_registers. destruct (config_path secrets name ct'); [done|].
    destruct (decide (ct' = ct)) as [->|Hct].
    + destruct (decide (name ∈ files)).
      * by rewrite decide_True.
      * rewrite decide_False; [done|]. by intros [_ ?].
    + rewrite decide_False; [done|]. by intros [? _].
  - destruct (config_path secrets name ct'); [done|]. by case_decide.
Qed.

Lemma config_path_get_config config_dirs secrets name ct :
  ct ∈ [PATTERNS; SUBSTITUTIONS; VALIDATORS] →
  config_path
    (foldl (λ secrets d, foldl (scan listdir d) secrets [PATTERNS; SUBSTITUTIONS; VALIDATORS])
           secrets config_dirs) name ct =
  match config_path secrets name ct with
  | Some path => Some path
  | None => first_found listdir ct name config_dirs
  end.
Proof.
  intros Hct. revert secrets. induction config_dirs as [|d rest IH]; intros secrets.
  - simpl. by destruct (config_path secrets name ct).
  - cbn [foldl]. rewrite IH. cbn [first_found]. rewrite !config_path_scan.
    destruct (config_path secrets name ct) as [path|]; [done|].
    repeat (apply elem_of_cons in Hct as [->|Hct]);
      [..|by apply elem_of_nil in Hct];
      repeat (first [rewrite decide_True by done | rewrite decide_False by done]);
      by destruct (found_in listdir d _ name).
Qed.

(** X11. [get_config]: for each name and configuration type the first
    directory that lists the name wins, a directory that cannot be listed
    is passed over, and a name no directory lists has no path. *)
Theorem get_config_first_directory_wins config_dirs name ct :
  ct ∈ [PATTERNS; SUBSTITUTIONS; VALIDATORS] →
  (∀ before d after files,
     config_dirs = before ++ d :: after →
     listdir (Os.path_join d [ct]) = Some files → name ∈ files →
     (∀ d' files', d' ∈ before → listdir (Os.path_join d' [ct]) = Some files' →
        name ∉ files') →
     config_path (get_config listdir config_dirs) name ct
     = Some (Os.path_join d [ct; name])) ∧
  ((∀ d files, d ∈ config_dirs → listdir (Os.path_join d [ct]) = Some files →
      name ∉ files) →
   config_path (get_config listdir config_dirs) name ct = None).
Proof.
  intros Hct. unfold get_config. rewrite config_path_get_config by done.
  assert (config_path ∅ name ct = None) as -> by (unfold config_path; by rewrite lookup_empty).
  split.
  - intros before d after files -> Hls Hin Hbefore.
    induction before as [|d' before IH]; cbn [app first_found].
    + unfold found_in. rewrite Hls. by rewrite decide_True.
    + assert (found_in listdir d' ct name = None) as ->.
      { unfold found_in. destruct (listdir (Os.path_join d' [ct])) as [files'|] eqn:E; [|done].
        rewrite decide_False; [done|]. apply (Hbefore d'); [by left|done]. }
      apply IH. intros d'' files'' Hd. apply Hbefore. by right.
  - intros Hnone. induction config_dirs as [|d rest IH]; [done|]. cbn [first_found].
    assert (found_in listdir d ct name = None) as ->.
    { unfold found_in. destruct (listdir (Os.path_join d [ct])) as [files|] eqn:E; [|done].
      rewrite decide_False; [done|]. apply (Hnone d); [by left|done]. }
    apply IH. intros d' files' Hd. apply Hnone. by right.
Qed.

(** No directory that can be listed: no configuration at all. *)
Lemma get_config_nothing config_dirs :
  (∀ d ct, d ∈ config_dirs → listdir (Os.path_join d [ct]) = None) →
  get_config listdir config_dirs = ∅.
Proof.
  intros Hnone. unfold get_config. generalize (eq_refl (∅ : config)).
  generalize (∅ : config) at 1 3. intros secrets Hs.
  revert secrets Hs. induction config_dirs as [|d rest IH]; intros secrets ->; [done|].
  cbn [foldl]. apply IH.
  - intros. apply Hnone. by right.
  - unfold scan. by rewrite !Hnone by (by left).
Qed.

End Config.

(** ** [main] *)

Section Main.
Context {order : DictOrder} {names : ConfigOrder}.
Variable home : string.
Variable listdir : string → option (list string).
Variable read_file : string → option string.
Variable writable : string → bool.
Variable call : world → list string → proc.

Lemma reaches_trans r1 r2 r3 :
  reaches call r1 r2 → reaches call r2 r3 → reaches call r1 r3.
Proof.
  intros H12 H23. induction H23 as [|r3 w line out r4 w4 _ IH Hstep]; [done|].
  by eapply reaches_redact.
Qed.

Lemma redact_quiet line r w : quiet r line → redact call line (r, w) = (Ok line, (r, w)).
Proof.
  intros [Hno Habsent].
  assert (candidates r line = []) as Hc.
  { unfold candidates. induction (patterns r) as [|p ps IH]; simpl; [done|].
    rewrite Hno by (by left). apply IH. intros. apply Hno. by right. }
  rewrite redact_unfold, discover_flat, Hc. simpl. do 2 f_equal.
  apply apply_all_absent. intros [k v] Hkv%replacements_entries. simpl in *.
  apply Habsent. eauto.
Qed.

Lemma redact_chain_quiet rs line w :
  (∀ r, r ∈ rs → quiet r line) → redact_chain call rs line w = (Ok line, rs, w).
Proof.
  induction rs as [|r rs IH]; intros Hq; simpl; [done|].
  rewrite redact_quiet by (apply Hq; by left).
  rewrite IH; [done|]. intros. apply Hq. by right.
Qed.

Lemma redact_chain_reaches rs line w o rs' w' :
  redact_chain call rs line w = (o, rs', w') → Forall2 (reaches call) rs rs'.
Proof.
  revert line w o rs' w'. induction rs as [|r rs IH]; intros line w o rs' w'; simpl.
  - intros [= _ <- _]. constructor.
  - destruct (redact call line (r, w)) as [[line'|e] [r' w1]] eqn:Hr.
    + destruct (redact_chain call rs line' w1) as [[o1 rs1] w2] eqn:Hc.
      intros [= _ <- _]. constructor; [|by eapply IH].
      eapply reaches_redact; [apply reaches_here | exact Hr].
    + intros [= _ <- _]. constructor.
      * eapply reaches_redact; [apply reaches_here | exact Hr].
      * clear. induction rs; constructor; [apply reaches_here | done].
Qed.

Lemma Forall2_reaches_trans rs1 rs2 rs3 :
  Forall2 (reaches call) rs1 rs2 → Forall2 (reaches call) rs2 rs3 →
  Forall2 (reaches call) rs1 rs3.
Proof.
  intros H12. revert rs3. induction H12 as [|r1 r2 rs1 rs2 Hr _ IH]; intros rs3 H23.
  - by inversion H23.
  - inversion H23 as [|? r3 ? rs3' Hr' H23']; subst. constructor; [|by apply IH].
    by eapply reaches_trans.
Qed.

Lemma Forall2_reaches_refl rs : Forall2 (reaches call) rs rs.
Proof. induction rs; constructor; [apply reaches_here | done]. Qed.

Lemma process_reaches rs lines w out out' e rs' w' :
  process call rs lines w out = (out', e, rs', w') → Forall2 (reaches call) rs rs'.
Proof.
  revert rs w out. induction lines as [|line lines IH]; intros rs w out; simpl.
  - intros [= _ _ <- _]. apply Forall2_reaches_refl.
  - destruct (redact_chain call rs line w) as [[[line'|e1] rs1] w1] eqn:Hc.
    + intros Hp. eapply Forall2_reaches_trans; [by eapply redact_chain_reaches|].
      by eapply IH.
    + intros [= _ _ <- _]. by eapply redact_chain_reaches.
Qed.

Lemma process_written rs lines w out out' e rs' w' :
  process call rs lines w out = (out', e, rs', w') →
  ∃ more,
    out' = out ++ more ∧
    (e = None → length more = length lines) ∧
    (is_Some e → (length more < length lines)%nat).
Proof.
  revert rs w out. induction lines as [|line lines IH]; intros rs w out; simpl.
  - intros [= <- <- _ _]. exists []. rewrite (right_id_L [] (++)).
    split_and!; [done|done|by intros [? ?]].
  - destruct (redact_chain call rs line w) as [[[line'|e1] rs1] w1] eqn:Hc.
    + intros Hp. destruct (IH _ _ _ Hp) as (more & -> & Hnone & Hsome).
      exists (line' :: more). rewrite <- (assoc_L (++)). simpl.
      split_and!; [done|intros; f_equal; auto|intros ?%Hsome; lia].
    + intros [= <- <- _ _]. exists []. rewrite (right_id_L [] (++)).
      split_and!; [done|done|simpl; lia].
Qed.

(** X12. The loop of [main] over the lines of the file: each instance of
    the chain only changes by calls of its own [redact] (so its patterns,
    base string and validator stay, and its table only grows); what was
    written stays written; a line is written for every line read when no
    exception ends the loop, and for fewer lines otherwise. *)
Theorem process_chain rs lines w out out' e rs' w' :
  process call rs lines w out = (out', e, rs', w') →
  Forall2 (reaches call) rs rs' ∧
  ∃ more,
    out' = out ++ more ∧
    (e = None → length more = length lines) ∧
    (is_Some e → (length more < length lines)%nat).
Proof.
  intros Hp. split.
  - by eapply process_reaches.
  - by eapply process_written.
Qed.

(** X13. Lines that concern no instance of the chain pass through
    unchanged, the instances stay as they are and no process is run; the
    lines of a file, put together again, are the file. *)
Theorem quiet_lines_pass_through rs content w :
  (∀ r line, r ∈ rs → line ∈ Os.file_lines content → quiet r line) →
  process call rs (Os.file_lines content) w [] = (Os.file_lines content, None, rs, w) ∧
  foldr String.append EmptyString (Os.file_lines content) = content.
Proof.
  intros Hq. split; [|apply file_lines_concat].
  assert (∀ lines out,
            (∀ r line, r ∈ rs → line ∈ lines → quiet r line) →
            process call rs lines w out = (out ++ lines, None, rs, w)) as Hgen.
  { clear Hq. induction lines as [|line lines IH]; intros out Hq; simpl.
    - by rewrite (right_id_L [] (++)).
    - rewrite redact_chain_quiet by (intros; apply Hq; [done|by left]).
      rewrite IH by (intros; apply Hq; [done|by right]).
      by rewrite <- (assoc_L (++)). }
  by apply (Hgen _ []).
Qed.

Lemma write_all_ending dir rs written :
  (write_all writable dir rs written).2 = Returned ∨
  ∃ path, (write_all writable dir rs written).2 = IOError path.
Proof.
  revert written. induction rs as [|r rs IH]; intros written; simpl; [by left|].
  destruct (writable _); [apply IH | right; eauto].
Qed.

(** X14. [main] ends with [sys.exit] only with status 1, after writing
    the message and nothing else; it does so whenever none of the
    configuration directories can be listed. *)
Theorem main_exits_without_configuration args w :
  (∀ status,
     ended (main home listdir read_file writable call args w) = SysExit status →
     main home listdir read_file writable call args w = no_configuration) ∧
  ((∀ d ct, d ∈ directories home args → listdir (Os.path_join d [ct]) = None) →
   main home listdir read_file writable call args w = no_configuration).
Proof.
  split.
  - intros status. unfold main.
    destruct (map_result _ _) as [created|e]; [|done].
    destruct (omap id created) as [|r rs]; [done|].
    destruct (read_file (Args.file args)) as [content|]; [|done].
    destruct (process _ _ _ _ _) as [[[out [e|]] rs'] w']; [done|].
    destruct (Args.write_substitutions args) as [[|a dir]|]; [done| |done].
    destruct (write_all_ending (String a dir) rs' []) as [Hw|[path Hw]];
      destruct (write_all _ _ _ _) as [written e]; simpl in *; by subst.
  - intros Hnone. unfold main. fold (directories home args).
    rewrite (get_config_nothing listdir _ Hnone).
    assert (config_keys ∅ = []) as ->.
    { apply Permutation_nil_r. by rewrite config_keys_perm, map_to_list_empty. }
    done.
Qed.

(** X15. When [main] returns, the input file could be read and exactly
    one line was written to standard output for each of its lines; no file
    is written unless a directory was given for the substitutions. *)
Theorem main_writes_a_line_per_line args w :
  ended (main home listdir read_file writable call args w) = Returned →
  ∃ content,
    read_file (Args.file args) = Some content ∧
    length (stdout (main home listdir read_file writable call args w))
    = length (Os.file_lines content) ∧
    (Args.write_substitutions args = None ∨
     Args.write_substitutions args = Some EmptyString →
     files (main home listdir read_file writable call args w) = []).
Proof.
  unfold main.
  destruct (map_result _ _) as [created|e]; [|done].
  destruct (omap id created) as [|r rs]; [done|].
  destruct (read_file (Args.file args)) as [content|]; [|done].
  destruct (process _ _ _ _ _) as [[[out [e|]] rs'] w'] eqn:Hp; [done|].
  destruct (process_written _ _ _ _ _ _ _ _ Hp) as (more & -> & Hlen & _).
  intros Hend. exists content. split; [done|].
  destruct (Args.write_substitutions args) as [[|a dir]|] eqn:Hw.
  - simpl. split; [auto|done].
  - destruct (write_all _ _ _ _) as [written e]. simpl. split; [auto|].
    intros [?|?]; done.
  - simpl. split; [auto|done].
Qed.

End Main.

(** ** The files [main] writes *)

Lemma map_result_elem {A B} (f : A → result B) l ys y :
  map_result f l = Ok ys → y ∈ ys → ∃ x, x ∈ l ∧ f x = Ok y.
Proof.
  revert ys. induction l as [|x l IH]; intros ys; simpl.
  - by intros [= <-] ?%elem_of_nil.
  - destruct (f x) as [y0|e] eqn:Hx; [|done]. simpl.
    destruct (map_result f l) as [ys'|e]; [|done]. simpl. intros [= <-].
    intros [->|Hin]%elem_of_cons.
    + exists x. split; [by left|done].
    + destruct (IH _ eq_refl Hin) as (x' & ? & ?). exists x'. split; [by right|done].
Qed.

Section Files.
Context {order : DictOrder} {names : ConfigOrder}.
Variable home : string.
Variable listdir : string → option (list string).
Variable read_file : string → option string.
Variable writable : string → bool.
Variable call : world → list string → proc.

Lemma reaches_base r r' :
  reaches call r r' → substitution_string r' = substitution_string r.
Proof.
  intros Hr.
  by apply (reaches_preserves call
              (λ r', substitution_string r' = substitution_string r) r r').
Qed.

Lemma write_all_elem dir rs written written' e x :
  write_all writable dir rs written = (written', e) → x ∈ written' →
  x ∈ written ∨
  ∃ r, r ∈ rs ∧ x = (Os.path_join dir [substitution_string r], dump r).
Proof.
  revert written. induction rs as [|r rs IH]; intros written; simpl.
  - intros [= <- _]. by left.
  - destruct (writable _).
    + intros Hw Hx. destruct (IH _ Hw Hx) as [[?| ->%list_elem_of_singleton]%elem_of_app|(r' & ? & ?)].
      * by left.
      * right. exists r. split; [by left|done].
      * right. exists r'. split; [by right|done].
    + intros [= <- _]. by left.
Qed.

(** X16. Every file [main] writes is in the directory given for the
    substitutions, is named after a secret that is configured and
    requested, and holds a line for each entry of the table of an instance
    that has this name as base string. *)
Theorem main_files_named_after_secrets args w path content :
  (path, content) ∈ files (main home listdir read_file writable call args w) →
  ∃ dir name r,
    Args.write_substitutions args = Some dir ∧ dir ≠ EmptyString ∧
    path = Os.path_join dir [name] ∧
    name ∈ config_keys (get_config listdir (directories home args)) ∧
    name ∈ requested args (get_config listdir (directories home args)) ∧
    substitution_string r = name ∧ content = dump r.
Proof.
  unfold main. fold (directories home args).
  set (c := get_config listdir (directories home args)).
  destruct (map_result _ _) as [created|e] eqn:Hcreated; [|by intros ?%elem_of_nil].
  destruct (omap id created) as [|r0 rs0] eqn:Hrs; [by intros ?%elem_of_nil|].
  destruct (read_file (Args.file args)) as [text|]; [|by intros ?%elem_of_nil].
  destruct (process _ _ _ _ _) as [[[out [e|]] rs'] w'] eqn:Hp; [by intros ?%elem_of_nil|].
  destruct (Args.write_substitutions args) as [[|a dir]|] eqn:Hdir;
    [by intros ?%elem_of_nil| |by intros ?%elem_of_nil].
  destruct (write_all _ _ _ _) as [written e] eqn:Hw. simpl. intros Hin.
  destruct (write_all_elem _ _ _ _ _ _ Hw Hin) as [?%elem_of_nil|(r' & Hr' & [= -> ->])];
    [done|].
  pose proof (process_reaches _ _ _ _ _ _ _ _ _ Hp) as Hreach.
  apply list_elem_of_lookup in Hr' as [i Hi].
  destruct (Forall2_lookup_r _ _ _ _ _ Hreach Hi) as (r & Hr & Hrr').
  assert (Some r ∈ created) as Hsome.
  { apply list_elem_of_lookup_2 in Hr. rewrite <- Hrs in Hr.
    apply list_elem_of_omap in Hr as (o & Ho & Hid). simpl in Hid. by subst. }
  destruct (map_result_elem _ _ _ _ Hcreated Hsome) as (name & Hname & Hcreate).
  apply list_elem_of_filter in Hname as [Hreq Hkey].
  unfold create_for in Hcreate.
  destruct (create_fields _ _ _ _ _ Hcreate) as (Hbase & _).
  exists (String a dir), name, r'.
  split_and!; [done|done| |done|done| |done];
    rewrite (reaches_base _ _ Hrr'), Hbase; done.
Qed.

End Files.

(** ** An empty secret *)

Lemma append_nil_r s : s +:+ EmptyString = s.
Proof. induction s as [|c s IH]; simpl; [done | by rewrite IH]. Qed.

Lemma replace_empty s new : Str.replace s EmptyString new = interleaved new s.
Proof.
  unfold Str.replace. induction s as [|c t IH]; simpl; [apply append_nil_r|].
  by rewrite IH.
Qed.

Lemma sorted_smallest_last {A} (key : A → nat) (l : list A) x :
  StronglySorted (λ a b, (key b ≤ key a)%nat) l → NoDup l → x ∈ l →
  (∀ y, y ∈ l → y = x ∨ (key x < key y)%nat) →
  ∃ l', l = l' ++ [x].
Proof.
  intros Hs. induction Hs as [|a l Hs IH Ha]; intros Hnd Hx Hmin.
  { by apply elem_of_nil in Hx. }
  apply NoDup_cons in Hnd as [Hal Hnd].
  destruct l as [|b l].
  - apply list_elem_of_singleton in Hx as ->. by exists [].
  - assert (x ∈ b :: l) as Hx'.
    { apply elem_of_cons in Hx as [->|?]; [|done].
      rewrite Forall_forall in Ha. pose proof (Ha b ltac:(by left)) as Hb.
      destruct (Hmin b ltac:(right; by left)) as [->|?]; [|lia].
      destruct Hal. by left. }
    destruct IH as [l' Hl']; [done|done| |].
    + intros y Hy. apply Hmin. by right.
    + exists (a :: l'). by rewrite Hl'.
Qed.

(** X17. An empty secret in the table is replaced last: [redact] returns
    the line as the other entries of the table redact it, with the
    placeholder of the empty secret before every character and at the end. *)
Theorem empty_secret_goes_everywhere `{DictOrder} (call : world → list string → proc)
    line st out st' p :
  redact call line st = (Ok out, st') →
  substitutions st'.1 !! EmptyString = Some p →
  ∃ others,
    others ≡ₚ map_to_list (delete EmptyString (substitutions st'.1)) ∧
    out = interleaved p (apply_all others line).
Proof.
  rewrite redact_unfold.
  destruct (discover call line st) as [[[]|e] st1]; [|done].
  intros [= <- <-] Hp.
  assert (replacements st1.1 ≡ₚ map_to_list (substitutions st1.1)) as Hperm.
  { unfold replacements. by rewrite sorted_perm, iteritems_perm. }
  destruct (sorted_smallest_last (λ i : string * string, Str.len i.1)
              (replacements st1.1) (EmptyString, p)) as [others Hothers].
  - apply sorted_descending.
  - rewrite Hperm. apply NoDup_map_to_list.
  - by apply replacements_entries.
  - intros [k v] Hkv%replacements_entries. simpl in Hkv.
    destruct k as [|c k]; [left; congruence|right; simpl; lia].
  - exists others. split.
    + apply (Permutation_cons_inv (a := (EmptyString, p))).
      rewrite map_to_list_delete by done. rewrite <- Hperm, Hothers.
      by rewrite Permutation_app_comm.
    + rewrite Hothers. unfold apply_all. rewrite foldl_snoc. simpl. apply replace_empty.
Qed.

(** ** The further properties at concrete inputs *)

Ltac no_char :=
  repeat (rewrite has_char_cons; intros [?|H]; [discriminate|revert H]);
  apply has_char_empty.

Lemma two_patterns_step :
  redact (order:=key_order) no_process "secret: x secretA" (two_patterns, [])
  = (Ok "secret: redact1 redact0", (two_patterns_after, [])).
Proof. vm_compute. reflexivity. Qed.

Lemma two_patterns_reaches :
  reaches (H:=key_order) no_process two_patterns two_patterns_after.
Proof.
  eapply reaches_redact; [apply reaches_here | exact two_patterns_step].
Qed.

Lemma secretA_not_in_ab : ¬ Str.occurs "secretA" "ab".
Proof.
  intros (pre & post & H).
  repeat (destruct pre as [|? pre]; simpl in H; try discriminate).
Qed.

Lemma instance_patterns_compiled_from_witness :
  ∃ r, AnyRe.__init__ (re:=model_re) "redact" (Some ["secretA"; "secret: (\S+)"]) None None
       = Ok r ∧
       Forall2 AnyRe.compiled_from ["secretA"; "secret: (\S+)"] (AnyRe.patterns r).
Proof.
  eexists. split; [reflexivity|].
  exact (proj1 (instance_patterns_compiled_from (re:=model_re)
                  "redact" (Some ["secretA"; "secret: (\S+)"]) None None _ eq_refl)).
Defined.

Lemma redact_frame_and_failure_witness :
  redact (order:=key_order) no_process "10.10.255.1" (ipv4_instance, [])
  = (Raise OSError, (ipv4_instance, [["validators/ipv4_address"; "10.10.255.1"]])) ∧
  ¬ no_validator ipv4_instance.
Proof.
  split; [vm_compute; reflexivity|].
  destruct (redact_frame_and_failure (order:=key_order) no_process
              "10.10.255.1" ipv4_instance [] (Raise OSError) ipv4_instance
              [["validators/ipv4_address"; "10.10.255.1"]] eq_refl)
    as (_ & _ & _ & _ & _ & _ & Hfail).
  exact (proj1 (proj2 (Hfail OSError eq_refl))).
Defined.

Lemma counter_counts_entries_witness :
  __init__ "redact" (Some ["secretA"; "secret: (\S+)"]) None None = Ok two_patterns ∧
  reaches (H:=key_order) no_process two_patterns two_patterns_after ∧
  Z.of_nat (size (substitutions two_patterns_after))
  = Z.of_nat (size (substitutions two_patterns)) + _counter two_patterns_after.
Proof.
  split; [reflexivity|]. split; [exact two_patterns_reaches|].
  exact (counter_counts_entries (order:=key_order) no_process
           "redact" (Some ["secretA"; "secret: (\S+)"]) None None
           two_patterns two_patterns_after eq_refl two_patterns_reaches).
Defined.

Lemma redact_again_changes_nothing_witness :
  no_validator two_patterns ∧
  redact (order:=key_order) no_process "secret: x secretA" (two_patterns, [])
  = (Ok "secret: redact1 redact0", (two_patterns_after, [])) ∧
  redact (order:=key_order) no_process "secret: x secretA" (two_patterns_after, [])
  = (Ok "secret: redact1 redact0", (two_patterns_after, [])).
Proof.
  split; [by left|]. split; [exact two_patterns_step|].
  exact (proj2 (redact_again_changes_nothing (H:=key_order) no_process
                  "secret: x secretA" two_patterns [] "secret: redact1 redact0"
                  two_patterns_after [] (or_introl eq_refl) two_patterns_step)).
Defined.

Lemma table_one_to_one_witness :
  __init__ "redact" None (Some {["secretA" := "x"]}) None = Ok seeded_instance ∧
  (∀ k1 k2 p, substitutions seeded_instance !! k1 = Some p →
     substitutions seeded_instance !! k2 = Some p → k1 = k2) ∧
  (∀ k i, 0 ≤ i → substitutions seeded_instance !! k ≠ Some ("redact" +:+ Str.of_int i)) ∧
  reaches (H:=key_order) no_process seeded_instance seeded_instance ∧
  ∀ k1 k2 p, substitutions seeded_instance !! k1 = Some p →
    substitutions seeded_instance !! k2 = Some p → k1 = k2.
Proof.
  assert (∀ k1 k2 p, substitutions seeded_instance !! k1 = Some p →
            substitutions seeded_instance !! k2 = Some p → k1 = k2) as Hinj.
  { unfold seeded_instance. simpl.
    intros k1 k2 p [<- _]%lookup_singleton_Some [<- _]%lookup_singleton_Some. done. }
  assert (∀ k i, 0 ≤ i →
            substitutions seeded_instance !! k ≠ Some ("redact" +:+ Str.of_int i)) as Hfree.
  { unfold seeded_instance. simpl.
    intros k i _ [_ H]%lookup_singleton_Some. simpl in H. discriminate. }
  split; [reflexivity|]. split; [exact Hinj|]. split; [exact Hfree|].
  split; [apply reaches_here|].
  exact (table_one_to_one (H:=key_order) no_process "redact" None
           (Some {["secretA" := "x"]}) None seeded_instance seeded_instance
           eq_refl Hinj Hfree (reaches_here _ _)).
Defined.

Lemma substitution_without_equals_witness :
  ¬ has_char "=" " redacted " ∧
  parse_substitution " redacted " = (EmptyString, "redacted").
Proof.
  assert (¬ has_char "=" " redacted ") as Hno by no_char.
  split; [exact Hno|].
  exact (substitution_without_equals " redacted " Hno).
Defined.

Lemma create_last_line_wins_witness :
  create "redact" None (Some ["a = 1"; "a = 2"]) None = Ok (Some twice_instance) ∧
  substitutions twice_instance !! "a" = Some "2".
Proof.
  split; [vm_compute; reflexivity|].
  refine (proj1 (create_last_line_wins "redact" None (Some ["a = 1"; "a = 2"]) None
                   twice_instance _) [("a", "1")] "a" "2" [] eq_refl _).
  - vm_compute. reflexivity.
  - apply not_elem_of_nil.
Defined.

Lemma written_table_reads_back_witness :
  (∀ secret placeholder,
     substitutions seeded_instance !! secret = Some placeholder →
     storable secret placeholder) ∧
  dict_of (parse_substitution <$>
             read_uncommented_lines
               (Some (Os.file_lines (dump (order:=key_order) seeded_instance))))
  = substitutions seeded_instance.
Proof.
  assert (∀ secret placeholder,
            substitutions seeded_instance !! secret = Some placeholder →
            storable secret placeholder) as Hstor.
  { unfold seeded_instance. simpl.
    intros secret placeholder [<- <-]%lookup_singleton_Some.
    unfold storable, stripped. split_and!; [reflexivity|reflexivity|..|reflexivity]; no_char. }
  split; [exact Hstor|].
  exact (proj1 (written_table_reads_back (order:=key_order) seeded_instance Hstor)).
Defined.

Lemma get_config_first_directory_wins_witness :
  PATTERNS ∈ [PATTERNS; SUBSTITUTIONS; VALIDATORS] ∧
  config_path (get_config example_listdir ["/home/u/.redact"; "/etc/redact"]) "ip" PATTERNS
  = Some "/home/u/.redact/patterns/ip".
Proof.
  assert (PATTERNS ∈ [PATTERNS; SUBSTITUTIONS; VALIDATORS]) as Hct by (by left).
  split; [exact Hct|].
  refine (proj1 (get_config_first_directory_wins example_listdir
                   ["/home/u/.redact"; "/etc/redact"] "ip" PATTERNS Hct)
            [] "/home/u/.redact" ["/etc/redact"] ["ip"; "pw"] eq_refl eq_refl _ _).
  - by left.
  - by intros d' files' ?%elem_of_nil.
Defined.

Lemma process_chain_witness :
  process (order:=key_order) no_process [seeded_instance] ["secretA"; "b"] [] []
  = (["x"; "b"], None, [seeded_instance], []) ∧
  Forall2 (reaches (H:=key_order) no_process) [seeded_instance] [seeded_instance].
Proof.
  split; [vm_compute; reflexivity|].
  exact (proj1 (process_chain (order:=key_order) no_process [seeded_instance]
                  ["secretA"; "b"] [] [] ["x"; "b"] None [seeded_instance] [] eq_refl)).
Defined.

Lemma quiet_lines_pass_through_witness :
  (∀ r line, r ∈ [seeded_instance] → line ∈ Os.file_lines "ab" → quiet r line) ∧
  process (order:=key_order) no_process [seeded_instance] (Os.file_lines "ab") [] []
  = (Os.file_lines "ab", None, [seeded_instance], []).
Proof.
  assert (∀ r line, r ∈ [seeded_instance] → line ∈ Os.file_lines "ab" → quiet r line) as Hq.
  { intros r line ->%list_elem_of_singleton Hline. simpl in Hline.
    apply list_elem_of_singleton in Hline as ->. split.
    - by intros pattern ?%elem_of_nil.
    - unfold seeded_instance. simpl.
      intros secret [p [<- _]%lookup_singleton_Some]. exact secretA_not_in_ab. }
  split; [exact Hq|].
  exact (proj1 (quiet_lines_pass_through (order:=key_order) no_process
                  [seeded_instance] "ab" [] Hq)).
Defined.

Lemma main_writes_a_line_per_line_witness :
  ended (main (order:=key_order) (names:=name_order) "/home/u" example_listdir
           example_read_file (λ _, true) rejects_299 example_args []) = Returned ∧
  ∃ content,
    example_read_file (Args.file example_args) = Some content ∧
    length (stdout (main (order:=key_order) (names:=name_order) "/home/u" example_listdir
                      example_read_file (λ _, true) rejects_299 example_args []))
    = length (Os.file_lines content) ∧
    (Args.write_substitutions example_args = None ∨
     Args.write_substitutions example_args = Some EmptyString →
     files (main (order:=key_order) (names:=name_order) "/home/u" example_listdir
              example_read_file (λ _, true) rejects_299 example_args []) = []).
Proof.
  assert (ended (main (order:=key_order) (names:=name_order) "/home/u" example_listdir
                   example_read_file (λ _, true) rejects_299 example_args []) = Returned)
    as Hend by (vm_compute; reflexivity).
  split; [exact Hend|].
  exact (main_writes_a_line_per_line (order:=key_order) (names:=name_order) "/home/u"
           example_listdir example_read_file (λ _, true) rejects_299 example_args [] Hend).
Defined.

Lemma main_files_named_after_secrets_witness :
  ("out/pw", "hunter2 = pw0" +:+ newline)
  ∈ files (main (order:=key_order) (names:=name_order) "/home/u" example_listdir
             example_read_file (λ _, true) rejects_299 example_args []) ∧
  ∃ dir name r,
    Args.write_substitutions example_args = Some dir ∧ dir ≠ EmptyString ∧
    "out/pw" = Os.path_join dir [name] ∧
    name ∈ config_keys (ConfigOrder:=name_order)
             (get_config example_listdir (directories "/home/u" example_args)) ∧
    name ∈ requested (names:=name_order) example_args
             (get_config example_listdir (directories "/home/u" example_args)) ∧
    substitution_string r = name ∧
    "hunter2 = pw0" +:+ newline = dump (order:=key_order) r.
Proof.
  assert (("out/pw", "hunter2 = pw0" +:+ newline)
          ∈ files (main (order:=key_order) (names:=name_order) "/home/u" example_listdir
                     example_read_file (λ _, true) rejects_299 example_args [])) as Hin.
  { vm_compute. do 2 apply list_elem_of_further. apply list_elem_of_here. }
  split; [exact Hin|].
  exact (main_files_named_after_secrets (order:=key_order) (names:=name_order) "/home/u"
           example_listdir example_read_file (λ _, true) rejects_299 example_args []
           "out/pw" ("hunter2 = pw0" +:+ newline) Hin).
Defined.

Lemma empty_secret_goes_everywhere_witness :
  redact (order:=key_order) no_process "ab" (empty_secret_instance, [])
  = (Ok "-a-B-", (empty_secret_instance, [])) ∧
  substitutions empty_secret_instance !! EmptyString = Some "-" ∧
  ∃ others,
    others ≡ₚ map_to_list (delete EmptyString (substitutions empty_secret_instance)) ∧
    "-a-B-" = interleaved "-" (apply_all others "ab").
Proof.
  split; [vm_compute; reflexivity|]. split; [reflexivity|].
  exact (empty_secret_goes_everywhere (H:=key_order) no_process "ab"
           (empty_secret_instance, []) "-a-B-" (empty_secret_instance, []) "-"
           eq_refl eq_refl).
Defined.
